(** * Premios Platzi App: the polls models and the poll service over them

    A shallow embedding of [premiosplatziapp/polls/models.py] (the two
    Django models [Question] and [Choice]) together with the store
    operations and the poll-service rules that the specification layers
    over them.

    Conventions.
    - A timestamp is a [Z]: microseconds since the epoch, the resolution of
      Python's [datetime]. [timezone.now()] is a clock reading that the
      caller passes in.
    - A text field is a [string]; one character of the embedding stands for
      one character of the Python [str].
    - A model instance is a record; a field that Python may hold as [None]
      is an [option].
    - A database table is the list of its rows in insertion order.
    - Code that raises returns [Raise e] in the error monad [result]. *)

From Stdlib Require Import ZArith Lia Bool.
From stdpp Require Import base numbers list sorting strings.

Local Open Scope Z_scope.

(** ** Errors and the error monad *)

Inductive error : Type :=
  | NotFoundError      (* Http404 / DoesNotExist *)
  | ValidationError    (* django.core.exceptions.ValidationError *)
  | IntegrityError     (* a NOT NULL or FOREIGN KEY constraint failed *)
  | TypeError          (* Python comparison with None *)
  | ValueError
  | OverflowError.     (* a value outside the range of its type *)

Inductive result (A : Type) : Type :=
  | Ok (a : A)
  | Raise (e : error).
Arguments Ok {A} a.
Arguments Raise {A} e.

Global Instance result_ret : MRet result := λ A a, Ok a.
Global Instance result_bind : MBind result := λ A B k r,
  match r with
  | Ok a => k a
  | Raise e => Raise e
  end.

Definition is_ok {A} (r : result A) : bool :=
  match r with Ok _ => true | Raise _ => false end.

(** ** The data model (models.py) *)

(** [class Question(models.Model)]: the implicit primary key, and the two
    declared fields. [pk] is [None] until the row is inserted. *)
Record Question : Type := mkQuestion {
  pk : option Z;
  question_text : string;
  pub_date : option Z
}.

(** [class Choice(models.Model)]: [question] is the foreign key, held as
    the id of the owning row. *)
Record Choice : Type := mkChoice {
  choice_id : option Z;
  question_id : option Z;
  choice_text : string;
  votes : Z
}.

(** [CharField(max_length=200)] *)
Definition max_length : nat := 200.

(** [IntegerField(default=0)] *)
Definition votes_default : Z := 0.

(** [ForeignKey(Question, on_delete=...)]: what deleting the referenced
    row does to the rows that reference it. *)
Inductive on_delete_rule : Type :=
  | CASCADE
  | PROTECT
  | DO_NOTHING.

(** [question = models.ForeignKey(Question, on_delete=models.CASCADE)] *)
Definition Choice_question_on_delete : on_delete_rule := CASCADE.

(** [datetime.timedelta(days=1)], in microseconds. *)
Definition one_day : Z := 86400000000.

(** The integers that a column of the database holds: 64-bit signed. A
    Python [int] outside this range cannot be bound to a statement. *)
Definition sqlite_integer (x : Z) : Prop := - 2 ^ 63 ≤ x < 2 ^ 63.

Global Instance sqlite_integer_dec x : Decision (sqlite_integer x).
Proof. unfold sqlite_integer. apply _. Defined.

(** [datetime.min] and [datetime.max], the years 1 and 9999, in
    microseconds since the epoch; and the largest [days] of a
    [timedelta]. *)
Definition datetime_min : Z := -62135596800000000.
Definition datetime_max : Z := 253402300799999999.
Definition timedelta_max_days : Z := 999999999.

(** The two tables and their auto-increment counters. *)
Record Store : Type := mkStore {
  questions : list Question;
  choices : list Choice;
  question_seq : Z;
  choice_seq : Z
}.

Definition empty_store : Store := mkStore [] [] 1 1.

Global Instance Question_eq_dec : EqDecision Question.
Proof. solve_decision. Defined.
Global Instance Choice_eq_dec : EqDecision Choice.
Proof. solve_decision. Defined.
Global Instance error_eq_dec : EqDecision error.
Proof. solve_decision. Defined.

(** *** Construction

    [Model.__init__] stores the keyword arguments on the instance and runs
    no validator; an omitted [CharField] is the empty string, an omitted
    [pub_date] is [None], an omitted [votes] takes the field default. *)
Definition Question_init (text : string) (date : option Z) : result Question :=
  Ok (mkQuestion None text date).

Definition Choice_init (question : option Z) (text : string) (v : option Z)
  : result Choice :=
  Ok (mkChoice None question text (default votes_default v)).

(** [Model.full_clean] for the declared fields: the only place where
    [max_length] (and the implicit [blank=False]) is checked. Neither
    [__init__] nor [save] calls it. *)
Definition clean_text (text : string) : result unit :=
  if decide (String.length text = 0%nat) then Raise ValidationError
  else if decide (String.length text ≤ max_length)%nat then Ok tt
  else Raise ValidationError.

(** *** [Question.was_published_recently]

    [timezone.now() >= self.pub_date >= timezone.now() - timedelta(days=1)]:
    a chained comparison, so the clock is read once for the left operand
    and, only when the left comparison holds, once more for the right one.
    Comparing a [datetime] with [None] raises [TypeError]. *)
Definition was_published_recently (now1 now2 : Z) (self : Question)
  : result bool :=
  match pub_date self with
  | None => Raise TypeError
  | Some d =>
      if bool_decide (now1 >= d) then Ok (bool_decide (d >= now2 - one_day))
      else Ok false
  end.

(** *** Row lookup and the base [Model.save] *)

Definition has_pk (id : Z) (q : Question) : bool :=
  bool_decide (pk q = Some id).

Definition has_choice_id (id : Z) (c : Choice) : bool :=
  bool_decide (choice_id c = Some id).

Definition owned_by (id : Z) (c : Choice) : bool :=
  bool_decide (question_id c = Some id).

Definition find_question (id : Z) (st : Store) : option Question :=
  List.find (has_pk id) (questions st).

Definition find_choice (id : Z) (st : Store) : option Choice :=
  List.find (has_choice_id id) (choices st).

Definition replace_question (id : Z) (q : Question) (rows : list Question)
  : list Question :=
  (λ r, if has_pk id r then q else r) <$> rows.

Definition replace_choice (id : Z) (c : Choice) (rows : list Choice)
  : list Choice :=
  (λ r, if has_choice_id id r then c else r) <$> rows.

(** [models.Model.save] on the question table. [pub_date] is declared
    without [null=True], so a [None] violates its NOT NULL constraint. An
    instance without a primary key is inserted under the next id; one with
    a primary key is updated in place, or inserted under that key when no
    such row exists. [save] runs no validator, and the width of a
    [CharField] column is not enforced by SQLite, the database of a Django
    project unless configured otherwise: a text of any length is stored.
    Keys are those that the store hands out or that fit its integer
    column. *)
Definition Model_save_question (self : Question) (st : Store)
  : result (Question * Store) :=
  match pub_date self with
  | None => Raise IntegrityError
  | Some _ =>
      match pk self with
      | None =>
          let id := question_seq st in
          let row := mkQuestion (Some id) (question_text self) (pub_date self) in
          Ok (row, mkStore (questions st ++ [row]) (choices st)
                           (id + 1) (choice_seq st))
      | Some id =>
          if existsb (has_pk id) (questions st) then
            Ok (self, mkStore (replace_question id self (questions st))
                              (choices st) (question_seq st) (choice_seq st))
          else
            Ok (self, mkStore (questions st ++ [self]) (choices st)
                              (Z.max (question_seq st) (id + 1))
                              (choice_seq st))
      end
  end.

(** The integer fields of a choice all fit the columns of its row. *)
Definition storable (c : Choice) : Prop :=
  from_option sqlite_integer True (choice_id c)
  ∧ from_option sqlite_integer True (question_id c)
  ∧ sqlite_integer (votes c).

Global Instance storable_dec c : Decision (storable c).
Proof.
  unfold storable. destruct (choice_id c), (question_id c); simpl; apply _.
Defined.

(** The insert or update of a choice row whose values have been bound;
    the foreign key is NOT NULL and must reference a stored question. *)
Definition write_choice (self : Choice) (st : Store)
  : result (Choice * Store) :=
  match question_id self with
  | None => Raise IntegrityError
  | Some qid =>
      if existsb (has_pk qid) (questions st) then
        match choice_id self with
        | None =>
            let id := choice_seq st in
            let row := mkChoice (Some id) (question_id self)
                                (choice_text self) (votes self) in
            Ok (row, mkStore (questions st) (choices st ++ [row])
                             (question_seq st) (id + 1))
        | Some id =>
            if existsb (has_choice_id id) (choices st) then
              Ok (self, mkStore (questions st)
                                (replace_choice id self (choices st))
                                (question_seq st) (choice_seq st))
            else
              Ok (self, mkStore (questions st) (choices st ++ [self])
                                (question_seq st)
                                (Z.max (choice_seq st) (id + 1)))
        end
      else Raise IntegrityError
  end.

(** [models.Model.save] on the choice table. The values of the instance
    are bound to the statement first: an integer outside the 64-bit range
    raises [OverflowError] there, and nothing is written. *)
Definition Model_save_choice (self : Choice) (st : Store)
  : result (Choice * Store) :=
  if decide (storable self) then write_choice self st
  else Raise OverflowError.

(** *** [Question.save]

    [if self.pk is None and not self.pub_date: self.pub_date = timezone.now()]
    A [datetime] is always truthy, so [not self.pub_date] holds exactly
    when the field is [None]. *)
Definition default_pub_date (now : Z) (self : Question) : Question :=
  match pk self, pub_date self with
  | None, None => mkQuestion (pk self) (question_text self) (Some now)
  | _, _ => self
  end.

(** ... followed by the call of the base [save] with the same arguments. *)
Definition save (now : Z) (self : Question) (st : Store)
  : result (Question * Store) :=
  Model_save_question (default_pub_date now self) st.

(** [Question.objects.create]: construct, then save. *)
Definition Question_objects_create (now : Z) (text : string) (date : option Z)
  (st : Store) : result (Question * Store) :=
  q ← Question_init text date; save now q st.

(** [Choice.objects.create] *)
Definition Choice_objects_create (question : option Z) (text : string)
  (v : option Z) (st : Store) : result (Choice * Store) :=
  c ← Choice_init question text v; Model_save_choice c st.

(** ** The data store and the poll service

    The request handlers of the application are not among the sources;
    the operations below are modelled from the specification, over the
    tables of the models above. *)

(** Modelled from the spec: [get_question(id)] of the Data Store, absent
    from the sources: "fails with NotFoundError if absent". *)
Definition get_question (id : Z) (st : Store) : result Question :=
  match find_question id st with
  | Some q => Ok q
  | None => Raise NotFoundError
  end.

(** Modelled from the spec: the lookup of a Choice by id, absent from the
    sources; [record_vote] "fails with NotFoundError if question or choice
    absent". *)
Definition get_choice (id : Z) (st : Store) : result Choice :=
  match find_choice id st with
  | Some c => Ok c
  | None => Raise NotFoundError
  end.

(** Modelled from the spec: [is_visible(question, now)], absent from the
    sources: "true iff question.pub_date <= now". A row without a date
    satisfies no date comparison. *)
Definition is_visible (q : Question) (now : Z) : bool :=
  match pub_date q with
  | Some d => bool_decide (d ≤ now)
  | None => false
  end.

(** The order of publication dates; a missing date sorts before every
    date, as NULL does in the database. *)
Definition date_le (a b : option Z) : Prop :=
  match a, b with
  | None, _ => True
  | Some _, None => False
  | Some x, Some y => x ≤ y
  end.

Global Instance date_le_dec a b : Decision (date_le a b).
Proof. destruct a, b; simpl; apply _. Defined.

(** "descending pub_date order (most recent first)" *)
Definition later_first (a b : Question) : Prop :=
  date_le (pub_date b) (pub_date a).

Global Instance later_first_dec a b : Decision (later_first a b).
Proof. unfold later_first; apply _. Defined.

(** Modelled from the spec: [list_questions(filter?)] of the Data Store,
    absent from the sources: "returns in descending pub_date order (most
    recent first) ...; filter predicate optional". *)
Definition list_questions (keep : option (Question → bool)) (st : Store)
  : list Question :=
  merge_sort later_first
    (match keep with
     | Some f => filter (λ q, f q) (questions st)
     | None => questions st
     end).

(** Modelled from the spec: [list_visible_questions(now)] of the Poll
    Service, absent from the sources: "returns questions satisfying
    is_visible, ordered most-recent-first; empty sequence if none". *)
Definition list_visible_questions (now : Z) (st : Store) : list Question :=
  list_questions (Some (λ q, is_visible q now)) st.

(** Modelled from the spec: [get_visible_question_or_not_found(id, now)],
    absent from the sources: "fails with NotFoundError if the question
    does not exist OR exists but is not yet visible". *)
Definition get_visible_question_or_not_found (id now : Z) (st : Store)
  : result Question :=
  q ← get_question id st;
  if is_visible q now then Ok q else Raise NotFoundError.


(** The single update statement "votes = votes + 1" on the row [cid]. *)
Definition add_vote (c : Choice) : Choice :=
  mkChoice (choice_id c) (question_id c) (choice_text c) (votes c + 1).

Definition increment_votes (cid : Z) (rows : list Choice) : list Choice :=
  (λ r, if has_choice_id cid r then add_vote r else r) <$> rows.

(** Modelled from the spec: [record_vote(question_id, choice_id)], absent
    from the sources: "fails with NotFoundError if question or choice
    absent, or if choice does not belong to question. On success,
    atomically increments votes by 1 and persists". *)
Definition record_vote (qid cid : Z) (st : Store) : result Store :=
  _ ← get_question qid st;
  c ← get_choice cid st;
  if owned_by qid c then
    Ok (mkStore (questions st) (increment_votes cid (choices st))
                (question_seq st) (choice_seq st))
  else Raise NotFoundError.

(** [Model.delete] on the question table: the row goes, and the rows that
    reference it are treated as their foreign key declares. *)
Definition delete_with (rule : on_delete_rule) (id : Z) (st : Store)
  : result Store :=
  let kept := filter (λ q, negb (has_pk id q)) (questions st) in
  match rule with
  | CASCADE =>
      Ok (mkStore kept (filter (λ c, negb (owned_by id c)) (choices st))
                  (question_seq st) (choice_seq st))
  | PROTECT =>
      if existsb (owned_by id) (choices st) then Raise IntegrityError
      else Ok (mkStore kept (choices st) (question_seq st) (choice_seq st))
  | DO_NOTHING =>
      Ok (mkStore kept (choices st) (question_seq st) (choice_seq st))
  end.

(** Modelled from the spec: [delete_question(id)] of the Data Store,
    absent from the sources: "removes Question and cascades delete to all
    owned Choices"; the cascade is the [on_delete] of [Choice.question]. *)
Definition delete_question (id : Z) (st : Store) : result Store :=
  _ ← get_question id st;
  delete_with Choice_question_on_delete id st.

(** The votes of a stored choice. *)
Definition votes_of (cid : Z) (st : Store) : option Z :=
  votes <$> find_choice cid st.

(** ** Requests and reachable stores

    A store changes only through the writes below; a write that raises
    leaves the store as it was. *)
Inductive request : Type :=
  | QuestionSave (now : Z) (q : Question)   (* q.save(), Question.objects.create *)
  | ChoiceSave (c : Choice)                 (* c.save(), Choice.objects.create *)
  | DeleteQuestion (id : Z)
  | RecordVote (qid cid : Z).

Definition handle (r : request) (st : Store) : Store :=
  match r with
  | QuestionSave now q =>
      match save now q st with Ok (_, st') => st' | Raise _ => st end
  | ChoiceSave c =>
      match Model_save_choice c st with Ok (_, st') => st' | Raise _ => st end
  | DeleteQuestion id =>
      match delete_question id st with Ok st' => st' | Raise _ => st end
  | RecordVote qid cid =>
      match record_vote qid cid st with Ok st' => st' | Raise _ => st end
  end.

(** The stores reached from the empty one by requests that satisfy [P]. *)
Inductive reachable_via (P : request → Prop) : Store → Prop :=
  | reachable_empty : reachable_via P empty_store
  | reachable_handle st r :
      reachable_via P st → P r → reachable_via P (handle r st).

Definition reachable : Store → Prop := reachable_via (λ _, True).

(** A request that writes no negative vote count. *)
Definition writes_no_negative_votes (r : request) : Prop :=
  match r with
  | ChoiceSave c => 0 ≤ votes c
  | _ => True
  end.

(** ** Concurrent voters

    A request in flight is a thread: the store steps it still has to make
    and the value it holds locally. The scheduler picks, step by step, the
    thread that makes its next store step; each store step is atomic. *)
Inductive instr : Type :=
  | Vote (qid cid : Z)     (* record_vote: one store step *)
  | ReadVotes (cid : Z)    (* fetch the votes of a choice *)
  | WriteVotes (cid : Z).  (* write back the fetched value plus one *)

Record thread : Type := mkThread {
  code : list instr;
  cached : Z
}.

Definition set_votes (cid v : Z) (rows : list Choice) : list Choice :=
  (λ r, if has_choice_id cid r
        then mkChoice (choice_id r) (question_id r) (choice_text r) v
        else r) <$> rows.

Definition run_instr (i : instr) (local : Z) (st : Store) : Z * Store :=
  match i with
  | Vote qid cid =>
      (local, match record_vote qid cid st with Ok st' => st' | Raise _ => st end)
  | ReadVotes cid => (default local (votes_of cid st), st)
  | WriteVotes cid =>
      (local, mkStore (questions st) (set_votes cid (local + 1) (choices st))
                      (question_seq st) (choice_seq st))
  end.

Definition step (i : nat) (m : Store * list thread) : Store * list thread :=
  match m.2 !! i with
  | Some (mkThread (ins :: rest) local) =>
      let '(local', st') := run_instr ins local m.1 in
      (st', <[i := mkThread rest local']> m.2)
  | _ => m
  end.

Definition run (schedule : list nat) (m : Store * list thread)
  : Store * list thread :=
  foldl (λ m i, step i m) m schedule.

Definition is_done (t : thread) : bool :=
  match code t with [] => true | _ :: _ => false end.

Definition finished (m : Store * list thread) : bool := forallb is_done m.2.

(** A call of [record_vote]. *)
Definition voter (qid cid : Z) : thread := mkThread [Vote qid cid] 0.

(** The read-then-write-back of a cached value that the spec rules out. *)
Definition stale_voter (cid : Z) : thread :=
  mkThread [ReadVotes cid; WriteVotes cid] 0.

(** The store steps that the threads still have to make. *)
Fixpoint remaining (ts : list thread) : nat :=
  match ts with
  | [] => 0
  | t :: ts => length (code t) + remaining ts
  end.

(** What holds of the store and the threads while [n] calls of
    [record_vote] on the choice [cid] run: each thread has either made its
    step or not, and the count is the initial one plus the steps made. *)
Definition voting (qid cid : Z) (q : Question) (v0 : Z) (n : nat)
  (m : Store * list thread) : Prop :=
  Forall (λ t, t = voter qid cid ∨ t = mkThread [] 0) m.2
  ∧ length m.2 = n
  ∧ find_question qid m.1 = Some q
  ∧ ∃ c, find_choice cid m.1 = Some c ∧ question_id c = Some qid
         ∧ votes c + Z.of_nat (remaining m.2) = v0 + Z.of_nat n.

(** ** The fixtures of tests.py *)

(** [create_question(question_text, days)]: "published the given number of
    days offset to now". [datetime.timedelta(days=days)] raises
    [OverflowError] for more than 999999999 days either way, and so does
    the sum with [timezone.now()] when it leaves the range of [datetime]. *)
Definition create_question (now : Z) (text : string) (days : Z) (st : Store)
  : result (Question * Store) :=
  if decide (Z.abs days ≤ timedelta_max_days) then
    let time := now + days * one_day in
    if decide (datetime_min ≤ time ≤ datetime_max) then
      Question_objects_create now text (Some time) st
    else Raise OverflowError
  else Raise OverflowError.

(** The store after a request, for the requests that the tests issue. *)
Definition after_create_question (now : Z) (text : string) (days : Z)
  (st : Store) : Store :=
  handle (QuestionSave now (mkQuestion None text (Some (now + days * one_day)))) st.

(** [test_future_question]: one question, thirty days ahead. *)
Definition future_store : Store :=
  after_create_question 0 "Future question" 30 empty_store.

(** [test_two_past_questions] *)
Definition two_past_store : Store :=
  after_create_question 0 "Past question 2" (-40)
    (after_create_question 0 "Past question 1" (-30) empty_store).

(** [test_question_with_choices]: a question created without a date, and
    its two choices created without a vote count. *)
Definition colour_store : Store :=
  handle (ChoiceSave (mkChoice None (Some 1) "Verde" votes_default))
    (handle (ChoiceSave (mkChoice None (Some 1) "Rojo" votes_default))
       (handle (QuestionSave 0 (mkQuestion None "Cual es tu color favorito?" None))
          empty_store)).

(** A choice created with an explicit vote count below zero,
    [Choice.objects.create(question=q, choice_text="Rojo", votes=-1)]. *)
Definition negative_votes_store : Store :=
  handle (ChoiceSave (mkChoice None (Some 1) "Rojo" (-1)))
    (handle (QuestionSave 0 (mkQuestion None "Cual es tu color favorito?" None))
       empty_store).

(** A text of [n] characters. *)
Fixpoint text_of_length (n : nat) : string :=
  match n with
  | O => EmptyString
  | S n => String (Ascii.ascii_of_nat 97) (text_of_length n)
  end.

(** ** The rest of models.py and of the model tests *)

(** [Question.__str__]: [return self.question_text] *)
Definition Question_str (self : Question) : string := question_text self.

(** [Choice.__str__]: [return self.choice_text] *)
Definition Choice_str (self : Choice) : string := choice_text self.

(** [self.assertIs(value, expected)] on a boolean: whether it passes. *)
Definition assertIs (value expected : bool) : bool :=
  bool_decide (value = expected).

(** [with self.assertRaises(exc): body]: passes exactly when the body
    raises [exc]. *)
Definition assertRaises {A} (exc : error) (body : result A) : bool :=
  match body with
  | Raise e => bool_decide (e = exc)
  | Ok _ => false
  end.

(** The three recency tests of [QuestionModelTests]. The clock is read
    once by the test, at [t0], and then by [was_published_recently], at
    [t1] and [t2]. The result is whether the assertion passes. *)
Definition test_was_published_recently_with_future_questions (t0 t1 t2 : Z)
  : result bool :=
  let time := t0 + 30 * one_day in
  future_question ← Question_init "Quien es el mejor Course Director de Platzi"
                      (Some time);
  recent ← was_published_recently t1 t2 future_question;
  Ok (assertIs recent false).

Definition test_was_published_with_past_questions (t0 t1 t2 : Z)
  : result bool :=
  let time := t0 + (-30) * one_day in
  future_question ← Question_init "Quien es el mejor Course Director de Platzi"
                      (Some time);
  recent ← was_published_recently t1 t2 future_question;
  Ok (assertIs recent false).

Definition test_was_published_with_right_now_questions (t0 t1 t2 : Z)
  : result bool :=
  let time := t0 in
  future_question ← Question_init "Quien es el mejor Course Director de Platzi"
                      (Some time);
  recent ← was_published_recently t1 t2 future_question;
  Ok (assertIs recent true).

(** [question.choice_set.add(choice)], the related manager of the foreign
    key with its default [bulk=True]: the owner must have a primary key,
    and an instance that was never saved is refused with [ValueError]
    ("instance isn't saved. Use bulk=False or save the object first");
    a saved one has its row pointed at the owner. An instance straight
    from the constructor, as the test passes, is one without an id. *)
Definition choice_set_add (self : Question) (c : Choice) (st : Store)
  : result Store :=
  match pk self with
  | None => Raise ValueError
  | Some qid =>
      match choice_id c with
      | None => Raise ValueError
      | Some id =>
          Ok (mkStore (questions st)
                ((λ r, if has_choice_id id r
                       then mkChoice (choice_id r) (Some qid)
                                     (choice_text r) (votes r)
                       else r) <$> choices st)
                (question_seq st) (choice_seq st))
      end
  end.

(** The body of the [with] block of [test_create_question_without_choices],
    after the set-up lines before it; [t0] is the clock reading of the
    test, [t1] the one that [save] would take. *)
Definition create_question_without_choices_block (t0 t1 : Z) (st : Store)
  : result Store :=
  let question_text := "Pregunta sin opciones" in
  let pub_date := t0 in
  let choice_text := "Opcion 1" in
  choice ← Choice_init None choice_text None;
  question ← Question_init question_text (Some pub_date);
  saved ← save t1 question st;
  choice_set_add saved.1 choice saved.2.

Definition test_create_question_without_choices (t0 t1 : Z) (st : Store)
  : bool :=
  assertRaises ValueError (create_question_without_choices_block t0 t1 st).

(** ** Store invariants *)

(** What the database guarantees of the two tables: every question row
    has a primary key below the auto-increment counter, primary keys are
    unique, every choice references a stored question, and every question
    row carries a publication date. *)
Record consistent (st : Store) : Prop := mkConsistent {
  consistent_fresh :
    ∀ q, q ∈ questions st → ∃ i, pk q = Some i ∧ i < question_seq st;
  consistent_unique : NoDup (pk <$> questions st);
  consistent_refs :
    ∀ c, c ∈ choices st →
      ∃ qid, question_id c = Some qid ∧ existsb (has_pk qid) (questions st) = true;
  consistent_dated : ∀ q, q ∈ questions st → is_Some (pub_date q)
}.

(** No stored choice has a negative vote count. *)
Definition votes_nonnegative (st : Store) : Prop :=
  ∀ c, c ∈ choices st → 0 ≤ votes c.

(** * Properties *)

(** A call that returned [Ok (x, st')]: name the two components. *)
Ltac inv_ok :=
  let Heq := fresh "Heq" in intros Heq; injection Heq as <- <-.

(** ** The recency window *)

(** With the two clock readings kept apart: the result is [true] exactly
    when the date is not after the first reading and not more than a day
    before the second. *)
Lemma was_published_recently_readings now1 now2 q d :
  pub_date q = Some d →
  was_published_recently now1 now2 q
  = Ok (bool_decide (now2 - one_day ≤ d ∧ d ≤ now1)).
Proof.
  intros Hd. unfold was_published_recently. rewrite Hd.
  repeat case_bool_decide; first [reflexivity | exfalso; lia].
Qed.

Lemma was_published_recently_undated now1 now2 q :
  pub_date q = None → was_published_recently now1 now2 q = Raise TypeError.
Proof. intros Hd. unfold was_published_recently. by rewrite Hd. Qed.

(** The clock may tick between the two readings. Read at [one_day] and
    then one microsecond later, a question dated exactly one day before
    the first reading, and one dated at the second reading, are both
    answered [false], though the first lies in the closed day that ends at
    the first reading and the second in the one that ends at the second. *)
Lemma was_published_recently_tick_counterexample :
  (one_day - one_day ≤ 0 ∧ 0 ≤ one_day)
  ∧ was_published_recently one_day (one_day + 1)
      (mkQuestion None "Quien es el mejor" (Some 0)) = Ok false
  ∧ ((one_day + 1) - one_day ≤ one_day + 1 ∧ one_day + 1 ≤ one_day + 1)
  ∧ was_published_recently one_day (one_day + 1)
      (mkQuestion None "Quien es el mejor" (Some (one_day + 1))) = Ok false.
Proof. vm_compute. repeat split; congruence. Qed.

(** C1 (amended). For every question with publication date [d], and the
    clock read at [now1] and then at [now2], [was_published_recently]
    answers [true] if and only if [now2 - 1 day <= d <= now1]; it answers
    [false] for a date strictly before [now2 - 1 day] and for a date
    strictly after [now1]. When the clock does not tick between the
    readings, both being [now], this is the closed day ending at [now]. *)
Theorem was_published_recently_window now1 now2 q d :
  pub_date q = Some d →
  (was_published_recently now1 now2 q = Ok true
   ↔ now2 - one_day ≤ d ∧ d ≤ now1)
  ∧ (d < now2 - one_day → was_published_recently now1 now2 q = Ok false)
  ∧ (now1 < d → was_published_recently now1 now2 q = Ok false)
  ∧ (now1 = now2 →
     (was_published_recently now1 now2 q = Ok true
      ↔ now1 - one_day ≤ d ∧ d ≤ now1)).
Proof.
  intros Hd. rewrite (was_published_recently_readings now1 now2 q d Hd).
  split; [|split; [|split]].
  - case_bool_decide; split; intros; first [done | congruence | lia].
  - intros Hlt. f_equal. apply bool_decide_eq_false. lia.
  - intros Hlt. f_equal. apply bool_decide_eq_false. lia.
  - intros <-. case_bool_decide; split; intros; first [done | congruence | lia].
Qed.

Lemma was_published_recently_window_witness :
  was_published_recently 86400000000 86400000000
    (mkQuestion None "Quien es el mejor" (Some 0)) = Ok true
  ∧ was_published_recently 86400000001 86400000001
      (mkQuestion None "Quien es el mejor" (Some 0)) = Ok false.
Proof.
  split.
  - pose proof (was_published_recently_window 86400000000 86400000000
                  (mkQuestion None "Quien es el mejor" (Some 0)) 0 eq_refl)
      as (Hwindow & _).
    apply Hwindow. unfold one_day. lia.
  - pose proof (was_published_recently_window 86400000001 86400000001
                  (mkQuestion None "Quien es el mejor" (Some 0)) 0 eq_refl)
      as (_ & Hbefore & _).
    apply Hbefore. unfold one_day. lia.
Defined.

(** ** Rows and lookups *)

Lemma has_pk_true id q : has_pk id q = true ↔ pk q = Some id.
Proof. unfold has_pk. apply bool_decide_eq_true. Qed.

Lemma has_choice_id_true id c : has_choice_id id c = true ↔ choice_id c = Some id.
Proof. unfold has_choice_id. apply bool_decide_eq_true. Qed.

Lemma owned_by_true id c : owned_by id c = true ↔ question_id c = Some id.
Proof. unfold owned_by. apply bool_decide_eq_true. Qed.

Lemma existsb_has_pk id (rows : list Question) :
  existsb (has_pk id) rows = true ↔ ∃ q, q ∈ rows ∧ pk q = Some id.
Proof.
  rewrite existsb_exists. split; intros (q & Hin & Hq); exists q.
  - by rewrite list_elem_of_In, <- has_pk_true.
  - by rewrite <- list_elem_of_In, has_pk_true.
Qed.

Lemma find_has_pk_Some id (rows : list Question) q :
  List.find (has_pk id) rows = Some q → q ∈ rows ∧ pk q = Some id.
Proof.
  intros Hf. apply find_some in Hf as [Hin Hq].
  by rewrite list_elem_of_In, <- has_pk_true.
Qed.

Lemma find_has_pk_None id (rows : list Question) :
  List.find (has_pk id) rows = None ↔ ∀ q, q ∈ rows → pk q ≠ Some id.
Proof.
  split.
  - intros Hf q Hin Hq. apply list_elem_of_In in Hin.
    pose proof (find_none _ _ Hf q Hin) as Hn.
    apply has_pk_true in Hq. congruence.
  - intros Hall. induction rows as [|r rows IH]; [done|]. simpl.
    destruct (has_pk id r) eqn:Hr.
    + apply has_pk_true in Hr. exfalso. by apply (Hall r); [left|].
    + apply IH. intros q Hin. apply Hall. by right.
Qed.

(** Primary keys are unique, so the row under a key is the row found. *)
Lemma find_has_pk_unique id (rows : list Question) q :
  NoDup (pk <$> rows) → q ∈ rows → pk q = Some id →
  List.find (has_pk id) rows = Some q.
Proof.
  induction rows as [|r rows IH]; intros Hnd Hin Hq.
  - by apply elem_of_nil in Hin.
  - rewrite fmap_cons in Hnd. apply NoDup_cons in Hnd as [Hr Hnd]. simpl.
    apply elem_of_cons in Hin as [->|Hin].
    + apply has_pk_true in Hq. by rewrite Hq.
    + destruct (has_pk id r) eqn:Hpk.
      * apply has_pk_true in Hpk. exfalso. apply Hr.
        rewrite Hpk, <- Hq. by apply list_elem_of_fmap_2.
      * by apply IH.
Qed.

Lemma find_has_pk_app id (rows : list Question) q :
  (∀ r, r ∈ rows → pk r ≠ Some id) → pk q = Some id →
  List.find (has_pk id) (rows ++ [q]) = Some q.
Proof.
  intros Hall Hq. induction rows as [|r rows IH]; simpl.
  - apply has_pk_true in Hq. by rewrite Hq.
  - destruct (has_pk id r) eqn:Hr.
    + apply has_pk_true in Hr. exfalso. by apply (Hall r); [left|].
    + apply IH. intros x Hin. apply Hall. by right.
Qed.

Lemma replace_question_pks id q (rows : list Question) :
  pk q = Some id → pk <$> replace_question id q rows = pk <$> rows.
Proof.
  intros Hq. unfold replace_question. rewrite <- list_fmap_compose.
  apply list_fmap_ext. intros _ r _. simpl.
  destruct (has_pk id r) eqn:Hr; [|done].
  apply has_pk_true in Hr. congruence.
Qed.

Lemma elem_of_replace_question id q (rows : list Question) r :
  r ∈ replace_question id q rows → r = q ∨ r ∈ rows.
Proof.
  unfold replace_question. intros (x & -> & Hin)%list_elem_of_fmap.
  destruct (has_pk id x); auto.
Qed.

Lemma replace_question_elem_of id q (rows : list Question) :
  existsb (has_pk id) rows = true → q ∈ replace_question id q rows.
Proof.
  intros (r & Hin & Hr)%existsb_has_pk. unfold replace_question.
  apply list_elem_of_fmap. exists r. split; [|done].
  apply has_pk_true in Hr. by rewrite Hr.
Qed.

Lemma find_replace_question id q (rows : list Question) :
  pk q = Some id → existsb (has_pk id) rows = true →
  List.find (has_pk id) (replace_question id q rows) = Some q.
Proof.
  intros Hq Hex. induction rows as [|r rows IH]; [done|]. simpl in *.
  destruct (has_pk id r) eqn:Hr; simpl.
  - apply has_pk_true in Hq. by rewrite Hq.
  - rewrite Hr. by apply IH.
Qed.

Lemma find_increment_votes id cid (rows : list Choice) :
  List.find (has_choice_id id) (increment_votes cid rows)
  = (λ r, if has_choice_id cid r then add_vote r else r)
      <$> List.find (has_choice_id id) rows.
Proof.
  unfold increment_votes.
  induction rows as [|r rows IH]; [done|].
  rewrite fmap_cons. cbn [List.find]. rewrite IH.
  destruct (has_choice_id cid r) eqn:Hc.
  - change (has_choice_id id (add_vote r)) with (has_choice_id id r).
    destruct (has_choice_id id r); [|done].
    cbn [fmap option_fmap option_map]. by rewrite Hc.
  - destruct (has_choice_id id r); [|done].
    cbn [fmap option_fmap option_map]. by rewrite Hc.
Qed.

Lemma existsb_has_pk_pks id (rows : list Question) :
  existsb (has_pk id) rows = true ↔ Some id ∈ pk <$> rows.
Proof.
  rewrite existsb_has_pk, list_elem_of_fmap.
  split; intros (q & H1 & H2); exists q; by split.
Qed.

Lemma existsb_has_pk_app id (rows more : list Question) :
  existsb (has_pk id) rows = true → existsb (has_pk id) (rows ++ more) = true.
Proof. rewrite existsb_app. by intros ->. Qed.

Lemma elem_of_replace_choice id c (rows : list Choice) r :
  r ∈ replace_choice id c rows → r = c ∨ r ∈ rows.
Proof.
  unfold replace_choice. intros (x & -> & Hin)%list_elem_of_fmap.
  destruct (has_choice_id id x); auto.
Qed.

(** ** The writes keep the store consistent *)

Lemma empty_store_consistent : consistent empty_store.
Proof.
  split; simpl.
  - intros q Hin. by apply elem_of_nil in Hin.
  - constructor.
  - intros c Hin. by apply elem_of_nil in Hin.
  - intros q Hin. by apply elem_of_nil in Hin.
Qed.

Lemma Model_save_question_consistent q st q' st' :
  consistent st → Model_save_question q st = Ok (q', st') → consistent st'.
Proof.
  intros [Hfresh Huniq Hrefs Hdated]. unfold Model_save_question.
  destruct (pub_date q) as [d|] eqn:Hd; [|done].
  destruct (pk q) as [id|] eqn:Hpk.
  - destruct (existsb (has_pk id) (questions st)) eqn:Hex; inv_ok.
    + split; simpl.
      * intros r [->|Hin]%elem_of_replace_question; [|by apply Hfresh].
        apply existsb_has_pk in Hex as (x & Hx & Hxid).
        destruct (Hfresh x Hx) as (i & Hi & Hlt). exists id. split; [done|].
        congruence.
      * by rewrite replace_question_pks.
      * intros c Hc. destruct (Hrefs c Hc) as (qid & Hq & Hqid).
        exists qid. split; [done|].
        by rewrite existsb_has_pk_pks, replace_question_pks,
          <- existsb_has_pk_pks.
      * intros r [->|Hin]%elem_of_replace_question; [|by apply Hdated].
        by rewrite Hd.
    + split; simpl.
      * intros r [Hin| ->%list_elem_of_singleton]%elem_of_app.
        -- destruct (Hfresh r Hin) as (i & Hi & Hlt). exists i. split; [done|lia].
        -- exists id. split; [done|lia].
      * rewrite fmap_app. apply NoDup_app. split; [done|]. split.
        -- intros k Hk ->%list_elem_of_singleton.
           rewrite Hpk in Hk. apply existsb_has_pk_pks in Hk. congruence.
        -- apply NoDup_singleton.
      * intros c Hc. destruct (Hrefs c Hc) as (qid & Hq & Hqid).
        exists qid. split; [done|]. by apply existsb_has_pk_app.
      * intros r [Hin| ->%list_elem_of_singleton]%elem_of_app;
          [by apply Hdated|by rewrite Hd].
  - inv_ok. split; simpl.
    + intros r [Hin| ->%list_elem_of_singleton]%elem_of_app.
      * destruct (Hfresh r Hin) as (i & Hi & Hlt). exists i. split; [done|lia].
      * exists (question_seq st). split; [done|lia].
    + rewrite fmap_app. apply NoDup_app. split; [done|]. split.
      * intros k Hk Hk'%list_elem_of_singleton. simpl in Hk'. subst k.
        apply list_elem_of_fmap in Hk as (r & Hr & Hin).
        destruct (Hfresh r Hin) as (i & Hi & Hlt).
        rewrite Hi in Hr. injection Hr as Hr. lia.
      * apply NoDup_singleton.
    + intros c Hc. destruct (Hrefs c Hc) as (qid & Hq & Hqid).
      exists qid. split; [done|]. by apply existsb_has_pk_app.
    + intros r [Hin| ->%list_elem_of_singleton]%elem_of_app;
        [by apply Hdated|done].
Qed.

Lemma save_consistent now q st q' st' :
  consistent st → save now q st = Ok (q', st') → consistent st'.
Proof. unfold save. apply Model_save_question_consistent. Qed.

Lemma Model_save_choice_consistent c st c' st' :
  consistent st → Model_save_choice c st = Ok (c', st') → consistent st'.
Proof.
  intros [Hfresh Huniq Hrefs Hdated]. unfold Model_save_choice.
  destruct (decide (storable c)); [|done]. unfold write_choice.
  destruct (question_id c) as [qid|] eqn:Hq; [|done].
  destruct (existsb (has_pk qid) (questions st)) eqn:Hex; [|done].
  destruct (choice_id c) as [id|] eqn:Hid.
  - destruct (existsb (has_choice_id id) (choices st)); inv_ok;
      split; simpl; try done.
    + intros r [->|Hin]%elem_of_replace_choice; [|by apply Hrefs].
      by exists qid.
    + intros r [Hin| ->%list_elem_of_singleton]%elem_of_app;
        [by apply Hrefs|by exists qid].
  - inv_ok. split; simpl; try done.
    intros r [Hin| ->%list_elem_of_singleton]%elem_of_app;
      [by apply Hrefs|by exists qid].
Qed.

Lemma delete_question_eq id st st' :
  delete_question id st = Ok st' →
  is_Some (find_question id st)
  ∧ st' = mkStore (filter (λ q, negb (has_pk id q)) (questions st))
                  (filter (λ c, negb (owned_by id c)) (choices st))
                  (question_seq st) (choice_seq st).
Proof.
  unfold delete_question, get_question.
  destruct (find_question id st) as [q|]; [|done]. simpl.
  intros Heq; injection Heq as <-. eauto.
Qed.

Lemma delete_question_consistent id st st' :
  consistent st → delete_question id st = Ok st' → consistent st'.
Proof.
  intros [Hfresh Huniq Hrefs Hdated] [_ ->]%delete_question_eq.
  split; simpl.
  - intros q [_ Hin]%list_elem_of_filter. by apply Hfresh.
  - eapply sublist_NoDup; [exact Huniq|].
    apply fmap_sublist, sublist_filter.
  - intros c [Hown Hin]%list_elem_of_filter.
    destruct (Hrefs c Hin) as (qid & Hq & Hqid). exists qid. split; [done|].
    apply existsb_has_pk in Hqid as (q & Hqin & Hqpk).
    apply existsb_has_pk. exists q. split; [|done].
    apply list_elem_of_filter. split; [|done].
    apply negb_prop_intro. intros Hpk%Is_true_true%has_pk_true.
    apply negb_prop_elim in Hown. apply Hown, Is_true_true, owned_by_true.
    congruence.
  - intros q [_ Hin]%list_elem_of_filter. by apply Hdated.
Qed.

Lemma record_vote_eq qid cid st st' :
  record_vote qid cid st = Ok st' →
  ∃ q c, find_question qid st = Some q ∧ find_choice cid st = Some c
         ∧ question_id c = Some qid
         ∧ st' = mkStore (questions st) (increment_votes cid (choices st))
                         (question_seq st) (choice_seq st).
Proof.
  unfold record_vote, get_question, get_choice.
  destruct (find_question qid st) as [q|]; [|done]. simpl.
  destruct (find_choice cid st) as [c|]; [|done]. simpl.
  destruct (owned_by qid c) eqn:Hown; [|done].
  intros Heq; injection Heq as <-. exists q, c.
  by apply owned_by_true in Hown.
Qed.

Lemma elem_of_increment_votes cid (rows : list Choice) r :
  r ∈ increment_votes cid rows → ∃ c, c ∈ rows ∧ (r = c ∨ r = add_vote c).
Proof.
  unfold increment_votes. intros (c & -> & Hin)%list_elem_of_fmap.
  exists c. destruct (has_choice_id cid c); auto.
Qed.

Lemma record_vote_consistent qid cid st st' :
  consistent st → record_vote qid cid st = Ok st' → consistent st'.
Proof.
  intros [Hfresh Huniq Hrefs Hdated] (q & c & _ & _ & _ & ->)%record_vote_eq.
  split; simpl; try done.
  intros r (x & Hin & [->| ->])%elem_of_increment_votes;
    destruct (Hrefs x Hin) as (k & Hk & Hex); by exists k.
Qed.

Lemma handle_consistent r st : consistent st → consistent (handle r st).
Proof.
  intros Hst. destruct r as [now q|c|id|qid cid]; simpl.
  - destruct (save now q st) as [[q' st']|e] eqn:Hs; [|done].
    eauto using save_consistent.
  - destruct (Model_save_choice c st) as [[c' st']|e] eqn:Hs; [|done].
    eauto using Model_save_choice_consistent.
  - destruct (delete_question id st) as [st'|e] eqn:Hs; [|done].
    eauto using delete_question_consistent.
  - destruct (record_vote qid cid st) as [st'|e] eqn:Hs; [|done].
    eauto using record_vote_consistent.
Qed.

Lemma reachable_via_consistent P st : reachable_via P st → consistent st.
Proof.
  induction 1 as [|st r _ IH _];
    [apply empty_store_consistent|by apply handle_consistent].
Qed.

Lemma reachable_consistent st : reachable st → consistent st.
Proof. apply reachable_via_consistent. Qed.

(** Under unique keys, the lookup by id and membership agree. *)
Lemma find_question_elem_of id st q :
  consistent st →
  find_question id st = Some q ↔ q ∈ questions st ∧ pk q = Some id.
Proof.
  intros Hst. split.
  - apply find_has_pk_Some.
  - intros [Hin Hq]. apply find_has_pk_unique; [apply Hst|done..].
Qed.

(** ** Listing the visible questions *)

Global Instance later_first_total : Total later_first.
Proof.
  intros a b. unfold later_first, date_le.
  destruct (pub_date a), (pub_date b); simpl; auto; lia.
Qed.

Global Instance later_first_trans : Transitive later_first.
Proof.
  intros a b c. unfold later_first, date_le.
  destruct (pub_date a), (pub_date b), (pub_date c); simpl; auto; try lia.
Qed.

Lemma is_visible_true q now :
  is_visible q now = true ↔ ∃ d, pub_date q = Some d ∧ d ≤ now.
Proof.
  unfold is_visible. destruct (pub_date q) as [d|].
  - rewrite bool_decide_eq_true. split; [eauto|]. by intros (? & [= <-] & ?).
  - split; [done|]. by intros (? & ? & ?).
Qed.


Lemma StronglySorted_refine {A} (R R' : relation A) (l : list A) :
  (∀ a b, a ∈ l → b ∈ l → R a b → R' a b) →
  StronglySorted R l → StronglySorted R' l.
Proof.
  intros Himp Hs. induction Hs as [|x l Hs IH Hall]; constructor.
  - apply IH. intros a b Ha Hb. apply Himp; by right.
  - apply Forall_forall. intros y Hy. apply Himp; [by left|by right|].
    by apply (proj1 (Forall_forall _ _) Hall).
Qed.

Lemma list_visible_questions_perm now st :
  list_visible_questions now st
  ≡ₚ filter (λ q, is_visible q now) (questions st).
Proof. apply merge_sort_Permutation. Qed.

(** C4. At every evaluation time, the listing contains exactly the stored
    questions whose publication date is not after [now] (each as often as
    it is stored), leaves out every question dated after [now], is ordered
    by descending publication date, and is empty when no stored question
    is visible. *)
Theorem list_visible_questions_spec now st :
  (∀ q, q ∈ list_visible_questions now st
        ↔ q ∈ questions st ∧ ∃ d, pub_date q = Some d ∧ d ≤ now)
  ∧ (∀ q d, pub_date q = Some d → now < d →
            q ∉ list_visible_questions now st)
  ∧ list_visible_questions now st
      ≡ₚ filter (λ q, is_visible q now) (questions st)
  ∧ StronglySorted
      (λ a b, ∃ da db, pub_date a = Some da ∧ pub_date b = Some db ∧ db ≤ da)
      (list_visible_questions now st)
  ∧ ((∀ q, q ∈ questions st → is_visible q now = false) →
     list_visible_questions now st = []).
Proof.
  assert (Hmem : ∀ q, q ∈ list_visible_questions now st
                      ↔ q ∈ questions st ∧ ∃ d, pub_date q = Some d ∧ d ≤ now).
  { intros q. rewrite list_visible_questions_perm, list_elem_of_filter.
    rewrite Is_true_true, is_visible_true. tauto. }
  split; [exact Hmem|]. split; [|split; [|split]].
  - intros q d Hd Hlt (_ & d' & Hd' & Hle)%Hmem.
    rewrite Hd in Hd'. injection Hd' as <-. lia.
  - apply list_visible_questions_perm.
  - apply (StronglySorted_refine later_first).
    + intros a b (_ & da & Hda & _)%Hmem (_ & db & Hdb & _)%Hmem.
      unfold later_first. rewrite Hda, Hdb. simpl. eauto.
    + apply StronglySorted_merge_sort; apply _.
  - intros Hnone. apply Permutation_nil_r.
    rewrite list_visible_questions_perm.
    assert (filter (λ q, is_visible q now) (questions st) = []) as ->; [|done].
    apply elem_of_nil_inv. intros q [Hv Hin]%list_elem_of_filter.
    apply Is_true_true in Hv. rewrite (Hnone q Hin) in Hv. done.
Qed.

(** ** Looking up a visible question *)

(** C5. The lookup of a visible question fails with [NotFoundError] if and
    only if no stored question has the id or the stored question with the
    id is dated after [now]; otherwise it returns that question; and the
    error is the same [NotFoundError] in both failures. *)
Theorem get_visible_question_or_not_found_spec id now st :
  consistent st →
  (get_visible_question_or_not_found id now st = Raise NotFoundError
   ↔ (∀ q, q ∈ questions st → pk q ≠ Some id)
     ∨ (∃ q d, q ∈ questions st ∧ pk q = Some id
               ∧ pub_date q = Some d ∧ now < d))
  ∧ (∀ q, get_visible_question_or_not_found id now st = Ok q
          ↔ q ∈ questions st ∧ pk q = Some id
            ∧ ∃ d, pub_date q = Some d ∧ d ≤ now)
  ∧ (∀ e, get_visible_question_or_not_found id now st = Raise e →
          e = NotFoundError).
Proof.
  intros Hst. unfold get_visible_question_or_not_found, get_question.
  destruct (find_question id st) as [q|] eqn:Hf; simpl.
  - pose proof Hf as [Hin Hpk]%find_has_pk_Some.
    destruct (consistent_dated st Hst q Hin) as [d Hd].
    destruct (is_visible q now) eqn:Hv.
    + apply is_visible_true in Hv as (d' & Hd' & Hle).
      split; [|split]; [|intros q'|done].
      * split; [done|]. intros [Hnone|(q' & d'' & Hin' & Hpk' & Hd'' & Hlt)].
        -- by destruct (Hnone q Hin).
        -- assert (q' = q) as ->.
           { pose proof (proj2 (find_question_elem_of id st q' Hst)
                           (conj Hin' Hpk')) as Hq'.
             congruence. }
           rewrite Hd' in Hd''. injection Hd'' as <-. lia.
      * split.
        -- intros [= <-]. eauto.
        -- intros (Hin' & Hpk' & _). f_equal.
           pose proof (proj2 (find_question_elem_of id st q' Hst)
                         (conj Hin' Hpk')) as Hq'.
           congruence.
    + split; [|split]; [|intros q'|by intros e [= <-]].
      * split; [|done]. intros _. right. exists q, d.
        repeat split; try done.
        unfold is_visible in Hv. rewrite Hd in Hv.
        apply bool_decide_eq_false in Hv. lia.
      * split; [done|]. intros (Hin' & Hpk' & Hvis).
        pose proof (proj2 (find_question_elem_of id st q' Hst)
                      (conj Hin' Hpk')) as Hq'.
        assert (q' = q) as -> by congruence.
        apply is_visible_true in Hvis. congruence.
  - pose proof (proj1 (find_has_pk_None id (questions st)) Hf) as Hnone.
    split; [|split]; [|intros q'|by intros e [= <-]].
    + split; [auto|done].
    + split; [done|]. intros (Hin' & Hpk' & _). by destruct (Hnone q' Hin').
Qed.

Lemma future_store_reachable : reachable future_store.
Proof. apply reachable_handle; [apply reachable_empty|exact I]. Qed.

Lemma colour_store_reachable : reachable colour_store.
Proof. repeat (apply reachable_handle; [|exact I]). apply reachable_empty. Qed.

Lemma two_past_store_reachable : reachable two_past_store.
Proof. repeat (apply reachable_handle; [|exact I]). apply reachable_empty. Qed.

Lemma get_visible_question_or_not_found_spec_witness :
  get_visible_question_or_not_found 1 0 future_store = Raise NotFoundError
  ∧ get_visible_question_or_not_found 2 0 future_store = Raise NotFoundError.
Proof.
  split.
  - apply (get_visible_question_or_not_found_spec 1 0 future_store).
    + apply reachable_consistent, future_store_reachable.
    + right.
      exists (mkQuestion (Some 1) "Future question" (Some (30 * one_day))),
             (30 * one_day).
      split; [by left|]. split; [reflexivity|]. split; [reflexivity|].
      unfold one_day. lia.
  - apply (get_visible_question_or_not_found_spec 2 0 future_store).
    + apply reachable_consistent, future_store_reachable.
    + left. intros q ->%list_elem_of_singleton. discriminate.
Defined.

(** [test_two_past_questions]: the later of the two comes first. *)
Example list_two_past_questions :
  list_visible_questions 0 two_past_store
  = [mkQuestion (Some 1) "Past question 1" (Some (-30 * one_day));
     mkQuestion (Some 2) "Past question 2" (Some (-40 * one_day))].
Proof. vm_compute. reflexivity. Qed.

(** The helper [create_question] of the tests builds these stores. *)
Example create_future_question :
  create_question 0 "Future question" 30 empty_store
  = Ok (mkQuestion (Some 1) "Future question" (Some (30 * one_day)),
        future_store).
Proof. vm_compute. reflexivity. Qed.

(** [test_future_question] of the index view. *)
Example list_future_question : list_visible_questions 0 future_store = [].
Proof. vm_compute. reflexivity. Qed.

(** ** Deleting a question *)

Lemma negb_has_pk id q : negb (has_pk id q) ↔ pk q ≠ Some id.
Proof.
  unfold has_pk. rewrite <- bool_decide_not. apply bool_decide_spec.
Qed.

Lemma negb_owned_by id c : negb (owned_by id c) ↔ question_id c ≠ Some id.
Proof.
  unfold owned_by. rewrite <- bool_decide_not. apply bool_decide_spec.
Qed.

(** C8. After a successful [delete_question id], no stored question has
    the id and no stored choice references it; every remaining choice
    still references a stored question; and the two tables are the old
    ones without those rows, every other row kept in place. *)
Theorem delete_question_cascades id st st' :
  consistent st →
  delete_question id st = Ok st' →
  find_question id st' = None
  ∧ (∀ q, q ∈ questions st' → pk q ≠ Some id)
  ∧ (∀ c, c ∈ choices st' → question_id c ≠ Some id)
  ∧ (∀ c, c ∈ choices st' →
          ∃ qid, question_id c = Some qid ∧ is_Some (find_question qid st'))
  ∧ questions st' = filter (λ q, pk q ≠ Some id) (questions st)
  ∧ choices st' = filter (λ c, question_id c ≠ Some id) (choices st)
  ∧ (∀ q, pk q ≠ Some id → q ∈ questions st' ↔ q ∈ questions st)
  ∧ (∀ c, question_id c ≠ Some id → c ∈ choices st' ↔ c ∈ choices st).
Proof.
  intros Hst Hdel.
  pose proof (delete_question_consistent id st st' Hst Hdel) as Hst'.
  apply delete_question_eq in Hdel as [_ ->]. simpl in *.
  assert (Hq : ∀ q, q ∈ filter (λ q, negb (has_pk id q)) (questions st)
                    ↔ pk q ≠ Some id ∧ q ∈ questions st).
  { intros q. by rewrite list_elem_of_filter, negb_has_pk. }
  assert (Hc : ∀ c, c ∈ filter (λ c, negb (owned_by id c)) (choices st)
                    ↔ question_id c ≠ Some id ∧ c ∈ choices st).
  { intros c. by rewrite list_elem_of_filter, negb_owned_by. }
  repeat split.
  - apply find_has_pk_None. intros q Hin. by apply Hq in Hin as [? _].
  - intros q Hin. by apply Hq in Hin as [? _].
  - intros c Hin. by apply Hc in Hin as [? _].
  - intros c Hin.
    destruct (consistent_refs _ Hst' c Hin) as (qid & Hqid & Hex).
    exists qid. split; [done|].
    apply existsb_has_pk in Hex as (q & Hqin & Hqpk).
    exists q. apply find_question_elem_of; [done|]. by split.
  - apply list_filter_iff. intros q. apply negb_has_pk.
  - apply list_filter_iff. intros c. apply negb_owned_by.
  - intros Hin. by apply Hq in Hin as [_ ?].
  - intros Hin. by apply Hq.
  - intros Hin. by apply Hc in Hin as [_ ?].
  - intros Hin. by apply Hc.
Qed.

Lemma delete_question_cascades_witness :
  ∃ st', delete_question 1 colour_store = Ok st'
         ∧ questions st' = [] ∧ choices st' = [].
Proof.
  eexists. split; [reflexivity|].
  pose proof (delete_question_cascades 1 colour_store _
                (reachable_consistent _ colour_store_reachable) eq_refl)
    as (_ & _ & _ & _ & Hq & Hc & _).
  split; [exact Hq|exact Hc].
Defined.

(** ** Saving a question *)

Lemma default_pub_date_date now q :
  pk q = None ∨ is_Some (pub_date q) →
  pub_date (default_pub_date now q) = Some (default now (pub_date q))
  ∧ pk (default_pub_date now q) = pk q
  ∧ question_text (default_pub_date now q) = question_text q.
Proof.
  unfold default_pub_date.
  destruct (pk q) as [id|] eqn:Hpk, (pub_date q) as [d|] eqn:Hd; simpl;
    rewrite ?Hpk, ?Hd; intros [H|H]; try done; by destruct H.
Qed.

Lemma default_pub_date_persisted now q id :
  pk q = Some id → default_pub_date now q = q.
Proof. unfold default_pub_date. by intros ->. Qed.

Lemma existsb_has_pk_false id (rows : list Question) :
  existsb (has_pk id) rows = false → ∀ r, r ∈ rows → pk r ≠ Some id.
Proof.
  intros Hex r Hin Hr. assert (existsb (has_pk id) rows = true); [|congruence].
  apply existsb_has_pk. eauto.
Qed.

(** What a successful base save leaves behind: the saved instance has a
    key and the date it was saved with, it is the row found under its key,
    and the choice table is untouched. *)
Lemma Model_save_question_stored q st q' st' :
  consistent st →
  Model_save_question q st = Ok (q', st') →
  ∃ id d, pk q' = Some id ∧ pub_date q = Some d ∧ pub_date q' = Some d
          ∧ question_text q' = question_text q
          ∧ (pk q = None → id = question_seq st)
          ∧ (is_Some (pk q) → q' = q)
          ∧ find_question id st' = Some q'
          ∧ choices st' = choices st.
Proof.
  intros Hst. unfold Model_save_question.
  destruct (pub_date q) as [d|] eqn:Hd; [|done].
  destruct (pk q) as [id|] eqn:Hpk.
  - destruct (existsb (has_pk id) (questions st)) eqn:Hex;
      inv_ok; exists id, d; simpl;
      repeat split; try done.
    + by apply find_replace_question.
    + apply find_has_pk_app; [|done]. by apply existsb_has_pk_false.
  - inv_ok. exists (question_seq st), d; simpl.
    repeat split; try done; try by intros [? ?].
    apply find_has_pk_app; [|done]. intros r Hin Hr.
      destruct (consistent_fresh st Hst r Hin) as (i & Hi & Hlt).
      rewrite Hi in Hr. injection Hr as ->. lia.
Qed.

Lemma Model_save_question_ok q st :
  is_Some (pub_date q) → ∃ q' st', Model_save_question q st = Ok (q', st').
Proof.
  intros [d Hd]. unfold Model_save_question. rewrite Hd.
  destruct (pk q) as [id|]; [|eauto].
  destruct (existsb (has_pk id) (questions st)); eauto.
Qed.

Lemma save_ok now q st :
  pk q = None ∨ is_Some (pub_date q) → ∃ q' st', save now q st = Ok (q', st').
Proof.
  intros Hq. apply Model_save_question_ok.
  destruct (default_pub_date_date now q Hq) as (-> & _). eauto.
Qed.

Lemma save_undated_persisted now q st id :
  pk q = Some id → pub_date q = None → save now q st = Raise IntegrityError.
Proof.
  intros Hpk Hd. unfold save.
  rewrite (default_pub_date_persisted now q id Hpk).
  unfold Model_save_question. by rewrite Hd.
Qed.

(** The first save: the row goes in under the next id, dated with the
    instance's date or, for want of one, with the time of the save. *)
Lemma save_new_question now q st :
  consistent st → pk q = None →
  ∃ q' st', save now q st = Ok (q', st')
            ∧ pub_date q' = Some (default now (pub_date q))
            ∧ question_text q' = question_text q
            ∧ pk q' = Some (question_seq st)
            ∧ find_question (question_seq st) st' = Some q'.
Proof.
  intros Hst Hpk.
  destruct (save_ok now q st (or_introl Hpk)) as (q' & st' & Hs).
  exists q', st'. split; [done|]. unfold save in Hs.
  destruct (default_pub_date_date now q (or_introl Hpk)) as (Hd & Hk & Ht).
  apply Model_save_question_stored in Hs
    as (id & d & Hid & Hd1 & Hd2 & Htext & Hnew & _ & Hfind & _); [|done].
  rewrite Hk in Hnew. specialize (Hnew Hpk). subst id.
  repeat split; try done; congruence.
Qed.

(** C6. On the first save (no primary key yet) an unset [pub_date] is set
    to the time of the save, and a set one is kept; a save of a question
    that already has a primary key leaves the instance, and with it
    [pub_date], as it is: it stores the instance unchanged, or, when the
    date is unset, fails without defaulting it. *)
Theorem save_defaults_pub_date_on_first_save now q st :
  consistent st →
  (pk q = None →
   ∃ q' st', save now q st = Ok (q', st')
             ∧ pub_date q' = Some (default now (pub_date q))
             ∧ question_text q' = question_text q
             ∧ pk q' = Some (question_seq st)
             ∧ find_question (question_seq st) st' = Some q')
  ∧ (∀ id, pk q = Some id →
       default_pub_date now q = q
       ∧ (pub_date q = None → save now q st = Raise IntegrityError)
       ∧ (∀ q' st', save now q st = Ok (q', st') →
                    q' = q ∧ find_question id st' = Some q)).
Proof.
  intros Hst. split.
  - by apply save_new_question.
  - intros id Hpk. split; [by apply (default_pub_date_persisted now q id)|].
    split; [by apply (save_undated_persisted now q st id)|].
    intros q' st' Hs. unfold save in Hs.
    rewrite (default_pub_date_persisted now q id Hpk) in Hs.
    apply Model_save_question_stored in Hs
      as (id' & d & Hid & _ & _ & _ & _ & Hsame & Hfind & _); [|done].
    assert (q' = q) as -> by (apply Hsame; rewrite Hpk; eauto).
    split; [done|]. congruence.
Qed.

Lemma save_defaults_pub_date_on_first_save_witness :
  ∃ q' st', save 7 (mkQuestion None "Esta pregunta tiene opciones?" None)
              empty_store = Ok (q', st')
            ∧ pub_date q' = Some 7.
Proof.
  destruct (save_defaults_pub_date_on_first_save 7
              (mkQuestion None "Esta pregunta tiene opciones?" None)
              empty_store empty_store_consistent)
    as [Hnew _].
  destruct (Hnew eq_refl) as (q' & st' & Hs & Hd & _).
  exists q', st'. split; [exact Hs|exact Hd].
Defined.

(** ** A question without choices *)






(** ** Every stored question is dated *)

Lemma save_dated now q st q' st' :
  consistent st → save now q st = Ok (q', st') →
  is_Some (pub_date q') ∧ q' ∈ questions st'.
Proof.
  intros Hst Hs. unfold save in Hs.
  apply Model_save_question_stored in Hs
    as (id & d & _ & _ & Hd & _ & _ & _ & Hfind & _); [|done].
  split; [by rewrite Hd|]. by apply find_has_pk_Some in Hfind as [? _].
Qed.

(** C10. In every reachable store each question row has a publication
    date; a successful [Question.save] returns an instance whose date is
    set and which is stored; saving a new question without a date
    succeeds, with the time of the save as its date; and every request
    leaves a store in which each question row has a date. *)
Theorem saved_question_has_pub_date st :
  reachable st →
  (∀ q, q ∈ questions st → is_Some (pub_date q))
  ∧ (∀ now q q' st', save now q st = Ok (q', st') →
       is_Some (pub_date q') ∧ q' ∈ questions st'
       ∧ ∀ r, r ∈ questions st' → is_Some (pub_date r))
  ∧ (∀ now text, ∃ q' st',
       save now (mkQuestion None text None) st = Ok (q', st')
       ∧ pub_date q' = Some now)
  ∧ (∀ r q, q ∈ questions (handle r st) → is_Some (pub_date q)).
Proof.
  intros Hst%reachable_consistent. split; [|split; [|split]].
  - apply (consistent_dated st Hst).
  - intros now q q' st' Hs.
    destruct (save_dated now q st q' st' Hst Hs) as [Hd Hin].
    split; [done|]. split; [done|].
    apply (consistent_dated st'). by apply (save_consistent now q st q' st').
  - intros now text.
    destruct (save_new_question now (mkQuestion None text None) st Hst eq_refl)
      as (q' & st' & Hs & Hd & _). eauto.
  - intros r. apply (consistent_dated (handle r st)).
    by apply handle_consistent.
Qed.

Lemma saved_question_has_pub_date_witness :
  ∃ q' st', save 9 (mkQuestion None "Past question" None) future_store
            = Ok (q', st')
            ∧ pub_date q' = Some 9.
Proof.
  apply (saved_question_has_pub_date future_store future_store_reachable).
Defined.

(** ** The vote count *)

Lemma Model_save_question_choices q st q' st' :
  Model_save_question q st = Ok (q', st') → choices st' = choices st.
Proof.
  unfold Model_save_question.
  destruct (pub_date q); [|done].
  destruct (pk q) as [id|]; [destruct (existsb _ _)|];
    by inv_ok.
Qed.

Lemma Model_save_choice_rows c st c' st' :
  Model_save_choice c st = Ok (c', st') →
  votes c' = votes c ∧ c' ∈ choices st'
  ∧ ∀ r, r ∈ choices st' → r = c' ∨ r ∈ choices st.
Proof.
  unfold Model_save_choice.
  destruct (decide (storable c)); [|done]. unfold write_choice.
  destruct (question_id c) as [qid|]; [|done].
  destruct (existsb (has_pk qid) (questions st)); [|done].
  destruct (choice_id c) as [id|].
  - destruct (existsb (has_choice_id id) (choices st)) eqn:Hex;
      inv_ok; simpl.
    + split; [done|]. split.
      * apply existsb_exists in Hex as (r & Hin & Hr).
        unfold replace_choice. apply list_elem_of_fmap. exists r.
        rewrite Hr. split; [done|]. by apply list_elem_of_In.
      * intros r. apply elem_of_replace_choice.
    + split; [done|]. split.
      * apply elem_of_app. right. by apply list_elem_of_singleton.
      * intros r [Hin| ->%list_elem_of_singleton]%elem_of_app; auto.
  - inv_ok; simpl.
    split; [done|]. split.
    + apply elem_of_app. right. by apply list_elem_of_singleton.
    + intros r [Hin| ->%list_elem_of_singleton]%elem_of_app; auto.
Qed.

Lemma record_vote_nonnegative qid cid st st' :
  votes_nonnegative st → record_vote qid cid st = Ok st' →
  votes_nonnegative st'.
Proof.
  intros Hst (q & c & _ & _ & _ & ->)%record_vote_eq r. simpl.
  intros (x & Hin & [->| ->])%elem_of_increment_votes.
  - by apply Hst.
  - simpl. specialize (Hst x Hin). lia.
Qed.

Lemma handle_nonnegative r st :
  writes_no_negative_votes r → votes_nonnegative st →
  votes_nonnegative (handle r st).
Proof.
  intros Hr Hst. destruct r as [now q|c|id|qid cid]; simpl in *.
  - destruct (save now q st) as [[q' st']|e] eqn:Hs; [|done].
    unfold save in Hs. apply Model_save_question_choices in Hs.
    unfold votes_nonnegative. by rewrite Hs.
  - destruct (Model_save_choice c st) as [[c' st']|e] eqn:Hs; [|done].
    apply Model_save_choice_rows in Hs as (Hv & _ & Hrows).
    intros r [->|Hin]%Hrows; [lia|by apply Hst].
  - destruct (delete_question id st) as [st'|e] eqn:Hs; [|done].
    apply delete_question_eq in Hs as [_ ->].
    intros c [_ Hin]%list_elem_of_filter. by apply Hst.
  - destruct (record_vote qid cid st) as [st'|e] eqn:Hs; [|done].
    eauto using record_vote_nonnegative.
Qed.

Lemma reachable_nonnegative st :
  reachable_via writes_no_negative_votes st → votes_nonnegative st.
Proof.
  induction 1 as [|st r _ IH Hr].
  - intros c Hin. by apply elem_of_nil in Hin.
  - by apply handle_nonnegative.
Qed.

(** Non-negativity does not hold of every reachable store: a choice
    created with a vote count of -1 is stored as given. *)
Lemma negative_votes_reachable :
  reachable negative_votes_store
  ∧ mkChoice (Some 1) (Some 1) "Rojo" (-1) ∈ choices negative_votes_store
  ∧ ¬ votes_nonnegative negative_votes_store.
Proof.
  split; [|split].
  - repeat (apply reachable_handle; [|exact I]). apply reachable_empty.
  - by left.
  - intros Hnn. specialize (Hnn (mkChoice (Some 1) (Some 1) "Rojo" (-1))).
    simpl in Hnn. assert (0 ≤ -1) by (apply Hnn; by left). lia.
Qed.

(** C7 (amended). A choice created without a vote count has zero votes.
    The field is a signed integer: in every store reached by requests that
    write no negative count, no stored choice has a negative count, and
    creating a choice with the default, recording a vote and every other
    such request keep it so. *)
Theorem votes_default_zero_and_nonnegative st :
  reachable_via writes_no_negative_votes st →
  votes_nonnegative st
  ∧ (∀ question text, ∃ c, Choice_init question text None = Ok c ∧ votes c = 0)
  ∧ (∀ question text c st',
       Choice_objects_create question text None st = Ok (c, st') →
       votes c = 0 ∧ c ∈ choices st' ∧ votes_nonnegative st')
  ∧ (∀ qid cid st', record_vote qid cid st = Ok st' → votes_nonnegative st')
  ∧ (∀ r, writes_no_negative_votes r → votes_nonnegative (handle r st)).
Proof.
  intros Hst%reachable_nonnegative. split; [done|]. split; [|split; [|split]].
  - intros question text. by eexists.
  - intros question text c st' Hs. unfold Choice_objects_create in Hs.
    simpl in Hs. apply Model_save_choice_rows in Hs as (Hv & Hin & Hrows).
    change (votes c = 0) in Hv. split; [done|]. split; [done|].
    intros r [->|Hr]%Hrows; [lia|by apply Hst].
  - intros qid cid st'. by apply record_vote_nonnegative.
  - intros r Hr. by apply handle_nonnegative.
Qed.

Lemma votes_default_zero_and_nonnegative_witness :
  votes_nonnegative colour_store.
Proof.
  apply (votes_default_zero_and_nonnegative colour_store).
  unfold colour_store.
  apply reachable_handle; [|simpl; unfold votes_default; lia].
  apply reachable_handle; [|simpl; unfold votes_default; lia].
  apply reachable_handle; [apply reachable_empty|exact I].
Defined.

(** ** The length bound of the text fields *)

Lemma text_of_length_length n : String.length (text_of_length n) = n.
Proof. induction n as [|n IH]; simpl; by rewrite ?IH. Qed.

Lemma Model_save_choice_not_validation c st :
  Model_save_choice c st ≠ Raise ValidationError.
Proof.
  unfold Model_save_choice.
  destruct (decide (storable c)); [|done]. unfold write_choice.
  destruct (question_id c) as [qid|]; [|done].
  destruct (existsb (has_pk qid) (questions st)); [|done].
  destruct (choice_id c) as [id|]; [|done].
  by destruct (existsb (has_choice_id id) (choices st)).
Qed.

(** No error at construction: a question and a choice with a text of 201
    characters are constructed, and created, without any error. *)
Lemma long_text_accepted :
  String.length (text_of_length 201) = 201%nat
  ∧ Question_init (text_of_length 201) None
    = Ok (mkQuestion None (text_of_length 201) None)
  ∧ Choice_init (Some 1) (text_of_length 201) None
    = Ok (mkChoice None (Some 1) (text_of_length 201) 0)
  ∧ is_ok (Question_objects_create 0 (text_of_length 201) None empty_store)
    = true
  ∧ is_ok (Choice_objects_create (Some 1) (text_of_length 201) None
             (handle (QuestionSave 0 (mkQuestion None "Pregunta" None))
                empty_store))
    = true.
Proof. repeat split; vm_compute; reflexivity. Qed.

(** C9 (amended). Constructing a question or a choice accepts a text of
    any length, within the bound of 200 characters or beyond it, and
    creating one (construct, then save) raises no [ValidationError]
    either: a new question is always stored with its text as given. The
    bound is checked where the field validators are run, and there a text
    is refused exactly when it is empty or longer than 200 characters. *)
Theorem text_length_unchecked_at_construction text :
  (∀ date, Question_init text date = Ok (mkQuestion None text date))
  ∧ (∀ question v,
       Choice_init question text v
       = Ok (mkChoice None question text (default votes_default v)))
  ∧ (∀ now date st, ∃ q' st',
       Question_objects_create now text date st = Ok (q', st')
       ∧ question_text q' = text ∧ q' ∈ questions st')
  ∧ (∀ question v st,
       Choice_objects_create question text v st ≠ Raise ValidationError)
  ∧ (clean_text text = Raise ValidationError
     ↔ String.length text = 0%nat ∨ (max_length < String.length text)%nat)
  ∧ (clean_text text = Ok tt
     ↔ (0 < String.length text ≤ max_length)%nat).
Proof.
  split; [done|]. split; [done|]. split; [|split; [|split]].
  - intros now date st. unfold Question_objects_create. simpl.
    unfold save, Model_save_question.
    destruct date as [d|]; simpl; eexists _, _;
      (split; [reflexivity|]); simpl; (split; [done|]);
      apply elem_of_app; right; by apply list_elem_of_singleton.
  - intros question v st. unfold Choice_objects_create. simpl.
    apply Model_save_choice_not_validation.
  - unfold clean_text. repeat case_decide; split; intros Hc;
      first [done | lia | (by left) | (right; lia) | destruct Hc; lia].
  - unfold clean_text. repeat case_decide; split; intros Hc;
      first [done | lia].
Qed.

(** ** Concurrent votes *)

Lemma record_vote_counts qid cid st q c :
  find_question qid st = Some q → find_choice cid st = Some c →
  question_id c = Some qid →
  ∃ st', record_vote qid cid st = Ok st'
         ∧ find_question qid st' = Some q
         ∧ find_choice cid st' = Some (add_vote c).
Proof.
  intros Hq Hc Hown. unfold record_vote, get_question, get_choice.
  rewrite Hq, Hc. simpl.
  apply owned_by_true in Hown as Hown'. rewrite Hown'.
  eexists. split; [reflexivity|]. split; [done|].
  unfold find_choice in *. simpl. rewrite find_increment_votes, Hc. simpl.
  apply find_some in Hc as [_ ->]. done.
Qed.

Lemma remaining_insert (ts : list thread) i t t' :
  ts !! i = Some t →
  (remaining (<[i := t']> ts) + length (code t)
   = remaining ts + length (code t'))%nat.
Proof.
  revert i. induction ts as [|x ts IH]; intros [|i] Hi; try done.
  - injection Hi as ->. simpl. lia.
  - cbn [lookup list_lookup] in Hi. specialize (IH i Hi).
    change (<[S i := t']> (x :: ts)) with (x :: <[i := t']> ts).
    cbn [remaining]. lia.
Qed.

Lemma remaining_replicate n qid cid :
  remaining (replicate n (voter qid cid)) = n.
Proof. induction n as [|n IH]; simpl; [done|]. by rewrite IH. Qed.

Lemma finished_remaining m : finished m = true → remaining m.2 = 0%nat.
Proof.
  unfold finished. induction (m.2) as [|t ts IH]; simpl; [done|].
  intros [Ht Hts]%andb_prop. rewrite (IH Hts).
  unfold is_done in Ht. by destruct (code t).
Qed.

Lemma step_voting qid cid q v0 n i m :
  voting qid cid q v0 n m → voting qid cid q v0 n (step i m).
Proof.
  intros (Hts & Hlen & Hq & c & Hc & Hown & Hsum). destruct m as [st ts].
  unfold step. cbn [fst snd] in *.
  destruct (ts !! i) as [[[|ins rest] local]|] eqn:Hi;
    try (by repeat split; eauto).
  pose proof (proj1 (Forall_lookup _ _) Hts i _ Hi) as [Ht|Ht];
    [|discriminate Ht].
  injection Ht as -> -> ->. cbn [run_instr].
  destruct (record_vote_counts qid cid st q c Hq Hc Hown)
    as (st' & Hvote & Hq' & Hc').
  rewrite Hvote. unfold voting. cbn [fst snd].
  split; [|split; [|split]].
  - apply Forall_insert; [done|by right].
  - by rewrite length_insert.
  - done.
  - exists (add_vote c). split; [done|]. split; [done|].
    pose proof (remaining_insert ts i _ (mkThread [] 0) Hi) as Hrem.
    cbn [code length add_vote votes] in *. lia.
Qed.

Lemma run_voting qid cid q v0 n schedule m :
  voting qid cid q v0 n m → voting qid cid q v0 n (run schedule m).
Proof.
  unfold run. revert m.
  induction schedule as [|i schedule IH]; intros m Hm; simpl; [done|].
  by apply IH, step_voting.
Qed.

Lemma voting_start qid cid q c n st :
  find_question qid st = Some q → find_choice cid st = Some c →
  question_id c = Some qid →
  voting qid cid q (votes c) n (st, replicate n (voter qid cid)).
Proof.
  intros Hq Hc Hown. split; [|split; [|split]]; simpl.
  - apply Forall_replicate. by left.
  - apply length_replicate.
  - done.
  - exists c. rewrite remaining_replicate. by repeat split.
Qed.

Lemma step_done_kept i j m t :
  m.2 !! j = Some t → is_done t = true →
  ∃ t', (step i m).2 !! j = Some t' ∧ is_done t' = true.
Proof.
  intros Hj Ht. destruct m as [st ts]. unfold step. cbn [fst snd] in *.
  destruct (ts !! i) as [[[|ins rest] local]|] eqn:Hi; [by eauto| |by eauto].
  destruct (run_instr ins local st) as [local' st']. cbn [snd].
  destruct (decide (i = j)) as [->|Hne].
  - rewrite Hi in Hj. injection Hj as <-. discriminate Ht.
  - rewrite list_lookup_insert_ne by done. eauto.
Qed.

Lemma step_voting_done qid cid q v0 n i m :
  voting qid cid q v0 n m → (i < n)%nat →
  ∃ t, (step i m).2 !! i = Some t ∧ is_done t = true.
Proof.
  intros (Hts & Hlen & _) Hi. destruct m as [st ts]. cbn [fst snd] in *.
  destruct (lookup_lt_is_Some_2 ts i) as [t Ht]; [lia|].
  pose proof (proj1 (Forall_lookup _ _) Hts i t Ht) as [->| ->].
  - unfold step. cbn [fst snd]. rewrite Ht. cbn [voter run_instr].
    destruct (record_vote qid cid st); cbn [snd];
      (rewrite list_lookup_insert_eq by lia); eauto.
  - by apply (step_done_kept i i (st, ts) (mkThread [] 0)).
Qed.

Lemma run_snoc schedule i m : run (schedule ++ [i]) m = step i (run schedule m).
Proof. unfold run. by rewrite foldl_app. Qed.

(** Letting each thread make its step in turn ends every call. *)
Lemma run_in_turn_done qid cid q v0 n k m :
  voting qid cid q v0 n m → (k ≤ n)%nat →
  ∀ j, (j < k)%nat →
    ∃ t, (run (seq 0 k) m).2 !! j = Some t ∧ is_done t = true.
Proof.
  intros Hm. induction k as [|k IH]; intros Hk j Hj; [lia|].
  rewrite seq_S, run_snoc. simpl.
  destruct (decide (j = k)) as [->|Hne].
  - apply (step_voting_done qid cid q v0 n); [by apply run_voting|lia].
  - destruct (IH ltac:(lia) j ltac:(lia)) as (t & Ht & Hd).
    by apply (step_done_kept k j _ t).
Qed.

Lemma run_in_turn_finished qid cid q v0 n m :
  voting qid cid q v0 n m → finished (run (seq 0 n) m) = true.
Proof.
  intros Hm. unfold finished. apply forallb_forall. intros t Hin.
  apply list_elem_of_In, list_elem_of_lookup in Hin as [j Hj].
  pose proof (run_voting qid cid q v0 n (seq 0 n) m Hm) as (_ & Hlen & _).
  apply lookup_lt_Some in Hj as Hlt.
  destruct (run_in_turn_done qid cid q v0 n n m Hm (le_n n) j ltac:(lia))
    as (t' & Ht' & Hd).
  congruence.
Qed.

(** Two voters that fetch the count and write it back plus one, run in
    lockstep on the choice "Rojo", leave one vote where two were cast: the
    store step of [record_vote] must be the increment itself. *)
Lemma stale_voters_lose_an_update :
  let m := run [0; 1; 0; 1]%nat (colour_store, [stale_voter 1; stale_voter 1]) in
  finished m = true ∧ votes_of 1 colour_store = Some 0
  ∧ votes_of 1 m.1 = Some 1.
Proof. vm_compute. repeat split; reflexivity. Qed.

(** C3. On a choice that belongs to the question, two calls of
    [record_vote] raise its count by exactly 2; and however the scheduler
    interleaves [n] concurrent calls (100, say), each making its one
    atomic store step, once all have returned the count is the initial one
    plus [n], no update lost and none applied twice; and the calls do all
    return when each is let run. *)
Theorem record_vote_no_lost_update qid cid st q c :
  find_question qid st = Some q →
  find_choice cid st = Some c →
  question_id c = Some qid →
  (∃ st1 st2,
     record_vote qid cid st = Ok st1 ∧ record_vote qid cid st1 = Ok st2
     ∧ votes_of cid st1 = Some (votes c + 1)
     ∧ votes_of cid st2 = Some (votes c + 2))
  ∧ (∀ (n : nat) schedule,
       let m := run schedule (st, replicate n (voter qid cid)) in
       finished m = true → votes_of cid m.1 = Some (votes c + Z.of_nat n))
  ∧ (∀ n : nat,
       finished (run (seq 0 n) (st, replicate n (voter qid cid))) = true).
Proof.
  intros Hq Hc Hown. split; [|split].
  - destruct (record_vote_counts qid cid st q c Hq Hc Hown)
      as (st1 & Hv1 & Hq1 & Hc1).
    destruct (record_vote_counts qid cid st1 q (add_vote c) Hq1 Hc1 Hown)
      as (st2 & Hv2 & Hq2 & Hc2).
    exists st1, st2. unfold votes_of. rewrite Hc1, Hc2. simpl.
    repeat split; try done. f_equal. lia.
  - intros n schedule m Hfin.
    pose proof (run_voting qid cid q (votes c) n schedule _
                  (voting_start qid cid q c n st Hq Hc Hown))
      as (_ & _ & _ & c' & Hc' & _ & Hsum).
    fold m in Hc', Hsum. rewrite (finished_remaining m Hfin) in Hsum.
    unfold votes_of. rewrite Hc'. simpl. f_equal. lia.
  - intros n. apply (run_in_turn_finished qid cid q (votes c) n).
    by apply voting_start.
Qed.

Lemma record_vote_no_lost_update_witness :
  let m := run (seq 0 100) (colour_store, replicate 100 (voter 1 1)) in
  votes_of 1 m.1 = Some 100.
Proof.
  intros m.
  pose proof (record_vote_no_lost_update 1 1 colour_store
                (mkQuestion (Some 1) "Cual es tu color favorito?" (Some 0))
                (mkChoice (Some 1) (Some 1) "Rojo" 0)
                eq_refl eq_refl eq_refl) as (_ & Hany & Hturn).
  apply (Hany 100%nat (seq 0 100)). apply (Hturn 100%nat).
Defined.

(** * Further properties of the models and their tests *)

(** ** The recency window with the clock read twice *)

(** X1. The method reads the clock twice: it answers [true] exactly when
    the date is not after the first reading and not more than one day
    before the second. With a clock that does not run backwards a [true]
    answer is right at either reading; but a date exactly one day before
    the first reading, inside the closed window at that instant, is
    answered [false] as soon as the clock ticks between the readings. *)
Theorem was_published_recently_two_readings now1 now2 q d :
  pub_date q = Some d →
  (was_published_recently now1 now2 q = Ok true
   ↔ now2 - one_day ≤ d ∧ d ≤ now1)
  ∧ (was_published_recently now1 now2 q = Ok false
     ↔ d < now2 - one_day ∨ now1 < d)
  ∧ (now1 ≤ now2 → was_published_recently now1 now2 q = Ok true →
     was_published_recently now1 now1 q = Ok true
     ∧ was_published_recently now2 now2 q = Ok true)
  ∧ (now1 < now2 → d = now1 - one_day →
     was_published_recently now1 now1 q = Ok true
     ∧ was_published_recently now1 now2 q = Ok false).
Proof.
  intros Hd.
  rewrite !(was_published_recently_readings _ _ q d Hd).
  split; [|split; [|split]].
  - case_bool_decide; split; intros; first [done | congruence | lia].
  - case_bool_decide; split; intros;
      first [done | congruence | lia | exfalso; lia].
  - intros Hle Ht. case_bool_decide; [|congruence].
    split; f_equal; apply bool_decide_eq_true; lia.
  - intros Hlt ->. split; f_equal;
      [apply bool_decide_eq_true|apply bool_decide_eq_false];
      unfold one_day; lia.
Qed.

Lemma was_published_recently_two_readings_witness :
  was_published_recently one_day one_day (mkQuestion None "Pregunta" (Some 0))
  = Ok true
  ∧ was_published_recently one_day (one_day + 1)
      (mkQuestion None "Pregunta" (Some 0)) = Ok false.
Proof.
  apply (was_published_recently_two_readings one_day (one_day + 1)
           (mkQuestion None "Pregunta" (Some 0)) 0 eq_refl).
  - lia.
  - unfold one_day. lia.
Defined.

(** ** Recency of a saved question *)

(** What a successful base save returns, whatever the store. *)
Lemma Model_save_question_fields q st q' st' :
  Model_save_question q st = Ok (q', st') →
  pub_date q' = pub_date q ∧ question_text q' = question_text q
  ∧ is_Some (pub_date q) ∧ is_Some (pk q') ∧ q' ∈ questions st'.
Proof.
  unfold Model_save_question.
  destruct (pub_date q) as [d|] eqn:Hd; [|done].
  destruct (pk q) as [id|] eqn:Hpk.
  - destruct (existsb (has_pk id) (questions st)) eqn:Hex; inv_ok; simpl;
      (split; [done|]); (split; [done|]); (split; [by eauto|]);
      (split; [by rewrite Hpk; eauto|]).
    + by apply replace_question_elem_of.
    + apply elem_of_app. right. by apply list_elem_of_singleton.
  - inv_ok. simpl.
    split; [done|]. split; [done|]. split; [by eauto|]. split; [by eauto|].
    apply elem_of_app. right. by apply list_elem_of_singleton.
Qed.

Lemma save_date now q st q' st' :
  save now q st = Ok (q', st') →
  pub_date q' = Some (default now (pub_date q))
  ∧ question_text q' = question_text q ∧ q' ∈ questions st'.
Proof.
  unfold save. intros (Hd & Ht & Hsome & _ & Hin)%Model_save_question_fields.
  assert (Hq : pk q = None ∨ is_Some (pub_date q)).
  { destruct (pk q) as [id|] eqn:Hpk; [|by left]. right.
    by rewrite (default_pub_date_persisted now q id Hpk) in Hsome. }
  destruct (default_pub_date_date now q Hq) as (Hd' & _ & Ht').
  repeat split; [congruence|congruence|done].
Qed.

(** X2. [was_published_recently] raises exactly on an instance without a
    publication date, and then it is a [TypeError]; on the instance that a
    successful [save] returns it never raises: it answers by the window
    around the saved date, which is the instance's own date or, for want
    of one, the time of the save. *)
Theorem was_published_recently_after_save now q st q' st' n1 n2 :
  save now q st = Ok (q', st') →
  (∀ e, was_published_recently n1 n2 q = Raise e
        ↔ pub_date q = None ∧ e = TypeError)
  ∧ pub_date q' = Some (default now (pub_date q))
  ∧ was_published_recently n1 n2 q'
    = Ok (bool_decide (n2 - one_day ≤ default now (pub_date q)
                       ∧ default now (pub_date q) ≤ n1)).
Proof.
  intros (Hd & _)%save_date. split; [|split; [done|]].
  - intros e. unfold was_published_recently.
    destruct (pub_date q) as [d|].
    + split; [|by intros [? _]]. by destruct (bool_decide (n1 >= d)).
    + split; [by intros [= <-]|by intros [_ ->]].
  - by apply was_published_recently_readings.
Qed.

Lemma was_published_recently_after_save_witness :
  ∃ q' st', save 5 (mkQuestion None "Pregunta" None) empty_store = Ok (q', st')
            ∧ was_published_recently 6 7 q' = Ok true.
Proof.
  eexists _, _. split; [reflexivity|].
  pose proof (was_published_recently_after_save 5
                (mkQuestion None "Pregunta" None) empty_store _ _ 6 7 eq_refl)
    as (_ & _ & Hr).
  exact Hr.
Defined.

(** X3. A question saved for the first time without a date counts as
    recent from the save on until one day after it, and no longer: at
    readings not before the save, the answer is [true] exactly when the
    second reading is at most one day after the save. *)
Theorem new_question_recent_for_one_day now q st q' st' n1 n2 :
  pk q = None → pub_date q = None →
  save now q st = Ok (q', st') →
  now ≤ n1 →
  (was_published_recently n1 n2 q' = Ok true ↔ n2 ≤ now + one_day)
  ∧ (was_published_recently n1 n2 q' = Ok false ↔ now + one_day < n2).
Proof.
  intros Hpk Hd (Hd' & _)%save_date Hle. rewrite Hd in Hd'. simpl in Hd'.
  rewrite (was_published_recently_readings n1 n2 q' now Hd').
  split; case_bool_decide; split; intros;
    first [done | congruence | lia | exfalso; lia].
Qed.

Lemma new_question_recent_for_one_day_witness :
  ∃ q' st', save 5 (mkQuestion None "Pregunta" None) empty_store = Ok (q', st')
            ∧ was_published_recently 6 (5 + one_day + 1) q' = Ok false.
Proof.
  eexists _, _. split; [reflexivity|].
  apply (new_question_recent_for_one_day 5 (mkQuestion None "Pregunta" None)
           empty_store _ _ 6 (5 + one_day + 1) eq_refl eq_refl eq_refl).
  - lia.
  - lia.
Defined.

(** ** When [save] fails *)



(** ** Saving again, and the rows a save leaves alone *)

Lemma replace_question_same id q (rows : list Question) :
  (∀ r, r ∈ rows → pk r = Some id → r = q) →
  replace_question id q rows = rows.
Proof.
  intros Hsame. unfold replace_question.
  rewrite <- (list_fmap_id rows) at 2. apply list_fmap_ext.
  intros _ r Hr%list_elem_of_lookup_2. simpl.
  destruct (has_pk id r) eqn:Hpk; [|done].
  apply has_pk_true in Hpk. symmetry. by apply Hsame.
Qed.

Lemma find_replace_question_other id id' q (rows : list Question) :
  pk q = Some id → id' ≠ id →
  List.find (has_pk id') (replace_question id q rows)
  = List.find (has_pk id') rows.
Proof.
  intros Hq Hne. unfold replace_question.
  induction rows as [|r rows IH]; [done|].
  rewrite fmap_cons. cbn [List.find]. rewrite IH.
  destruct (has_pk id r) eqn:Hr; [|done].
  apply has_pk_true in Hr.
  assert (has_pk id' q = false) as ->
    by (apply bool_decide_eq_false; congruence).
  assert (has_pk id' r = false) as ->
    by (apply bool_decide_eq_false; congruence).
  done.
Qed.

Lemma find_app_other id' q (rows : list Question) :
  pk q ≠ Some id' →
  List.find (has_pk id') (rows ++ [q]) = List.find (has_pk id') rows.
Proof.
  intros Hq. induction rows as [|r rows IH]; simpl.
  - assert (has_pk id' q = false) as ->; [|done].
    by apply bool_decide_eq_false.
  - by destruct (has_pk id' r).
Qed.

(** X5. Saving the instance that a save returned changes nothing: at any
    later time the second save returns the same instance and the same
    store; the publication date is not refreshed and no row is added. *)
Theorem save_again_is_noop now now' q st q' st' :
  consistent st →
  save now q st = Ok (q', st') →
  save now' q' st' = Ok (q', st').
Proof.
  intros Hst Hs.
  pose proof (save_consistent now q st q' st' Hst Hs) as Hst'.
  unfold save in Hs.
  apply Model_save_question_stored in Hs
    as (id & d & Hid & _ & Hd & _ & _ & _ & Hfind & _); [|done].
  unfold save. rewrite (default_pub_date_persisted now' q' id Hid).
  unfold Model_save_question. rewrite Hd, Hid.
  assert (existsb (has_pk id) (questions st') = true) as ->.
  { apply existsb_has_pk. exists q'. by apply find_has_pk_Some in Hfind. }
  rewrite replace_question_same; [by destruct st'|].
  intros r Hin Hr.
  pose proof (proj2 (find_question_elem_of id st' r Hst') (conj Hin Hr)).
  congruence.
Qed.

Lemma save_again_is_noop_witness :
  ∃ q' st', save 5 (mkQuestion None "Pregunta" None) empty_store = Ok (q', st')
            ∧ save 9 q' st' = Ok (q', st').
Proof.
  eexists _, _. split; [reflexivity|].
  apply (save_again_is_noop 5 9 (mkQuestion None "Pregunta" None) empty_store).
  - apply empty_store_consistent.
  - reflexivity.
Defined.

(** X6. A save touches the row of the saved instance and nothing else:
    the choice table and its counter are as they were, the row under
    every other key is the one that was there, and no row with another
    key is lost. *)
Theorem save_keeps_other_rows now q st q' st' :
  save now q st = Ok (q', st') →
  choices st' = choices st
  ∧ choice_seq st' = choice_seq st
  ∧ (∀ id', pk q' ≠ Some id' → find_question id' st' = find_question id' st)
  ∧ (∀ r, r ∈ questions st → pk r ≠ pk q' → r ∈ questions st').
Proof.
  unfold save, Model_save_question, find_question.
  destruct (pub_date (default_pub_date now q)) as [d|]; [|done].
  destruct (pk (default_pub_date now q)) as [id|] eqn:Hpk.
  - destruct (existsb (has_pk id) (questions st)); inv_ok; simpl;
      (split; [done|]); (split; [done|]); split.
    + intros id' Hne. apply find_replace_question_other; congruence.
    + intros r Hin Hne. unfold replace_question.
      apply list_elem_of_fmap. exists r. split; [|done].
      rewrite Hpk in Hne.
      assert (has_pk id r = false) as ->; [|done].
      by apply bool_decide_eq_false.
    + intros id' Hne. by apply find_app_other.
    + intros r Hin _. apply elem_of_app. by left.
  - inv_ok. simpl. split; [done|]. split; [done|]. split.
    + intros id' Hne. by apply find_app_other.
    + intros r Hin _. apply elem_of_app. by left.
Qed.

Lemma save_keeps_other_rows_witness :
  ∃ q' st', save 9 (mkQuestion None "Past question" None) future_store
            = Ok (q', st')
            ∧ find_question 1 st' = find_question 1 future_store.
Proof.
  eexists _, _. split; [reflexivity|].
  pose proof (save_keeps_other_rows 9 (mkQuestion None "Past question" None)
                future_store _ _ eq_refl) as (_ & _ & Hrows & _).
  apply Hrows. discriminate.
Defined.

(** X7. Saving an instance whose key is stored, with its fields changed by
    assignment, updates the row in place: the save succeeds whenever the
    date is set, the lookup by the key then returns the instance as saved,
    and the keys of the table, their order, the number of rows and the id
    counter are unchanged. *)
Theorem save_updates_in_place now q st id q0 :
  find_question id st = Some q0 →
  pk q = Some id →
  is_Some (pub_date q) →
  ∃ st', save now q st = Ok (q, st')
         ∧ find_question id st' = Some q
         ∧ pk <$> questions st' = pk <$> questions st
         ∧ length (questions st') = length (questions st)
         ∧ question_seq st' = question_seq st.
Proof.
  intros Hfind Hpk [d Hd]. unfold save.
  rewrite (default_pub_date_persisted now q id Hpk).
  unfold Model_save_question. rewrite Hd, Hpk.
  assert (Hex : existsb (has_pk id) (questions st) = true).
  { apply existsb_has_pk. exists q0. by apply find_has_pk_Some in Hfind. }
  rewrite Hex. eexists. split; [reflexivity|]. simpl.
  split; [by apply find_replace_question|].
  split; [by apply replace_question_pks|]. split; [|done].
  unfold replace_question. by rewrite length_fmap.
Qed.

Lemma save_updates_in_place_witness :
  ∃ st', save 9 (mkQuestion (Some 1) "Past question" (Some (-one_day)))
           future_store
         = Ok (mkQuestion (Some 1) "Past question" (Some (-one_day)), st')
         ∧ length (questions st') = 1%nat.
Proof.
  destruct (save_updates_in_place 9
              (mkQuestion (Some 1) "Past question" (Some (-one_day)))
              future_store 1
              (mkQuestion (Some 1) "Future question" (Some (30 * one_day)))
              eq_refl eq_refl (ex_intro _ _ eq_refl))
    as (st' & Hs & _ & _ & Hlen & _).
  exists st'. split; [exact Hs|exact Hlen].
Defined.

(** ** The helper [create_question] of the tests *)

(** X8. [create_question(question_text, days)] raises [OverflowError], and
    nothing else, exactly when [days] exceeds 999999999 either way or the
    date [days] days from now falls outside the years 1 to 9999. Otherwise
    it stores a question with the given text and that date under the next
    id, leaving the choices alone; and while the clock has advanced less
    than a day since the creation, the question counts as recently
    published exactly when [days] is 0, or is -1 and the clock has not
    ticked at all. *)
Theorem create_question_outcome now text days st :
  (create_question now text days st = Raise OverflowError
   ↔ ¬ (Z.abs days ≤ timedelta_max_days
        ∧ datetime_min ≤ now + days * one_day ≤ datetime_max))
  ∧ (∀ e, create_question now text days st = Raise e → e = OverflowError)
  ∧ (Z.abs days ≤ timedelta_max_days →
     datetime_min ≤ now + days * one_day ≤ datetime_max →
     ∃ q' st',
       create_question now text days st = Ok (q', st')
       ∧ q' = mkQuestion (Some (question_seq st)) text
                (Some (now + days * one_day))
       ∧ questions st' = questions st ++ [q']
       ∧ choices st' = choices st
       ∧ ∀ n1 n2, now ≤ n1 → n1 ≤ n2 → n2 < now + one_day →
           (was_published_recently n1 n2 q' = Ok true
            ↔ days = 0 ∨ (days = -1 ∧ n2 = now))).
Proof.
  unfold create_question.
  destruct (decide (Z.abs days ≤ timedelta_max_days)) as [Hdays|Hdays];
    [destruct (decide (datetime_min ≤ now + days * one_day ≤ datetime_max))
       as [Hrange|Hrange]|].
  - split; [|split].
    + split; [done|]. intros Hn. destruct Hn. by split.
    + intros e He. discriminate He.
    + intros _ _.
      set (q' := mkQuestion (Some (question_seq st)) text
                   (Some (now + days * one_day))).
      exists q', (mkStore (questions st ++ [q']) (choices st)
                          (question_seq st + 1) (choice_seq st)).
      split; [reflexivity|]. split; [reflexivity|].
      split; [reflexivity|]. split; [reflexivity|].
      intros n1 n2 H1 H2 H3.
      rewrite (was_published_recently_readings n1 n2 q'
                 (now + days * one_day) eq_refl).
      unfold one_day in *.
      case_bool_decide; split; intros;
        first [done | congruence | lia | exfalso; lia].
  - split; [|split].
    + split; [|done]. by intros _ [_ ?].
    + by intros e [= <-].
    + by intros _ ?.
  - split; [|split].
    + split; [|done]. by intros _ [? _].
    + by intros e [= <-].
    + by intros ?.
Qed.

(** ** The recency tests and the clock *)

Lemma recency_test_outcome t1 t2 text d expected :
  (q ← Question_init text (Some d);
   recent ← was_published_recently t1 t2 q;
   Ok (assertIs recent expected))
  = Ok (assertIs (bool_decide (t2 - one_day ≤ d ∧ d ≤ t1)) expected).
Proof.
  simpl.
  by rewrite (was_published_recently_readings t1 t2
                (mkQuestion None text (Some d)) d eq_refl).
Qed.

(** X9. [test_was_published_recently_with_future_questions] never errors,
    and passes exactly when the method reads the clock before the date of
    the question, thirty days after the test's own reading (or more than a
    day past it): so it passes under every clock that does not run
    backwards and advances less than thirty days during the test. *)
Theorem test_future_questions_passes_iff t0 t1 t2 :
  (test_was_published_recently_with_future_questions t0 t1 t2 = Ok true
   ↔ t1 < t0 + 30 * one_day ∨ t0 + 31 * one_day < t2)
  ∧ (test_was_published_recently_with_future_questions t0 t1 t2 = Ok false
     ↔ t0 + 30 * one_day ≤ t1 ∧ t2 ≤ t0 + 31 * one_day)
  ∧ (t1 < t0 + 30 * one_day →
     test_was_published_recently_with_future_questions t0 t1 t2 = Ok true).
Proof.
  unfold test_was_published_recently_with_future_questions.
  rewrite recency_test_outcome. unfold assertIs, one_day.
  repeat split; repeat case_bool_decide; intros;
    first [done | congruence | lia | exfalso; lia].
Qed.

(** X10. [test_was_published_with_past_questions] never errors, and fails
    only if the clock has gone back at least twenty-nine days between the
    test's reading and the method's second reading: under every clock that
    does not run backwards it passes. *)
Theorem test_past_questions_passes_iff t0 t1 t2 :
  (test_was_published_with_past_questions t0 t1 t2 = Ok true
   ↔ t0 - 29 * one_day < t2 ∨ t1 < t0 - 30 * one_day)
  ∧ (test_was_published_with_past_questions t0 t1 t2 = Ok false
     ↔ t2 ≤ t0 - 29 * one_day ∧ t0 - 30 * one_day ≤ t1)
  ∧ (t0 ≤ t2 → test_was_published_with_past_questions t0 t1 t2 = Ok true).
Proof.
  unfold test_was_published_with_past_questions.
  rewrite recency_test_outcome. unfold assertIs, one_day.
  repeat split; repeat case_bool_decide; intros;
    first [done | congruence | lia | exfalso; lia].
Qed.

(** X11. [test_was_published_with_right_now_questions] never errors, and
    passes exactly when the method's first reading is not before the
    test's reading and its second reading is at most one day after it. *)
Theorem test_right_now_questions_passes_iff t0 t1 t2 :
  (test_was_published_with_right_now_questions t0 t1 t2 = Ok true
   ↔ t0 ≤ t1 ∧ t2 ≤ t0 + one_day)
  ∧ (test_was_published_with_right_now_questions t0 t1 t2 = Ok false
     ↔ t1 < t0 ∨ t0 + one_day < t2).
Proof.
  unfold test_was_published_with_right_now_questions.
  rewrite recency_test_outcome. unfold assertIs, one_day.
  repeat split; repeat case_bool_decide; intros;
    first [done | congruence | lia | exfalso; lia].
Qed.

(** ** The test of a question without choices *)

(** X12. [test_create_question_without_choices] passes on every store and
    under every clock, but not because the save raises: [question.save()]
    succeeds and stores the question, with the choice table unchanged, and
    the [ValueError] that the test expects comes from
    [question.choice_set.add(choice)], which refuses the unsaved choice. *)
Theorem test_create_question_without_choices_passes t0 t1 st :
  test_create_question_without_choices t0 t1 st = true
  ∧ ∃ q' st1,
      save t1 (mkQuestion None "Pregunta sin opciones" (Some t0)) st
      = Ok (q', st1)
      ∧ q' ∈ questions st1
      ∧ pub_date q' = Some t0
      ∧ choices st1 = choices st
      ∧ choice_set_add q' (mkChoice None None "Opcion 1" votes_default) st1
        = Raise ValueError.
Proof.
  split; [reflexivity|].
  eexists _, _. split; [reflexivity|]. simpl.
  split; [|by repeat split].
  apply elem_of_app. right. by apply list_elem_of_singleton.
Qed.

(** ** The text of a saved question *)

(** X13. [str(question)] survives the save: the instance that a save
    returns prints as the instance that was saved, and so does the row
    found under its key afterwards; a question made by
    [Question.objects.create] prints as the text it was created with. *)
Theorem Question_str_after_save now q st q' st' :
  consistent st →
  save now q st = Ok (q', st') →
  Question_str q' = Question_str q
  ∧ (∃ id, pk q' = Some id
           ∧ Question_str <$> find_question id st' = Some (Question_str q))
  ∧ (∀ text date, q = mkQuestion None text date → Question_str q' = text).
Proof.
  intros Hst Hs. unfold Question_str.
  pose proof (save_date now q st q' st' Hs) as (_ & Ht & _).
  unfold save in Hs.
  apply Model_save_question_stored in Hs
    as (id & d & Hid & _ & _ & _ & _ & _ & Hfind & _); [|done].
  split; [done|]. split.
  - exists id. split; [done|]. rewrite Hfind. simpl. by rewrite Ht.
  - intros text date ->. by rewrite Ht.
Qed.

Lemma Question_str_after_save_witness :
  ∃ q' st', save 5 (mkQuestion None "Past question" None) empty_store
            = Ok (q', st')
            ∧ Question_str q' = "Past question".
Proof.
  eexists _, _. split; [reflexivity|].
  apply (Question_str_after_save 5 (mkQuestion None "Past question" None)
           empty_store _ _ empty_store_consistent eq_refl).
Defined.

(** ** Saving a choice with a changed vote count *)

Lemma find_replace_choice id c (rows : list Choice) :
  choice_id c = Some id → existsb (has_choice_id id) rows = true →
  List.find (has_choice_id id) (replace_choice id c rows) = Some c.
Proof.
  intros Hc Hex. unfold replace_choice.
  induction rows as [|r rows IH]; [done|].
  rewrite fmap_cons. cbn [List.find]. cbn [existsb] in Hex.
  destruct (has_choice_id id r) eqn:Hr.
  - apply has_choice_id_true in Hc. by rewrite Hc.
  - rewrite Hr. by apply IH.
Qed.

Lemma find_replace_choice_other id id' c (rows : list Choice) :
  choice_id c = Some id → id' ≠ id →
  List.find (has_choice_id id') (replace_choice id c rows)
  = List.find (has_choice_id id') rows.
Proof.
  intros Hc Hne. unfold replace_choice.
  induction rows as [|r rows IH]; [done|].
  rewrite fmap_cons. cbn [List.find]. rewrite IH.
  destruct (has_choice_id id r) eqn:Hr; [|done].
  apply has_choice_id_true in Hr.
  assert (has_choice_id id' c = false) as ->
    by (apply bool_decide_eq_false; congruence).
  assert (has_choice_id id' r = false) as ->
    by (apply bool_decide_eq_false; congruence).
  done.
Qed.

(** X14. Assigning a vote count to a stored choice and saving it, as
    [test_question_with_votes] does, writes exactly that count on its row,
    negative or not, when the count fits a 64-bit integer: the save
    succeeds, the lookup of the choice then gives the assigned count and
    the same text, no row is added, the question table is untouched, and
    every other choice is as it was. A count that does not fit raises
    [OverflowError], and the store is left as it was. *)
Theorem Choice_save_sets_votes id v c0 st :
  consistent st →
  find_choice id st = Some c0 →
  storable c0 →
  (sqlite_integer v →
   ∃ st',
     Model_save_choice
       (mkChoice (Some id) (question_id c0) (choice_text c0) v) st
     = Ok (mkChoice (Some id) (question_id c0) (choice_text c0) v, st')
     ∧ votes_of id st' = Some v
     ∧ Choice_str <$> find_choice id st' = Some (Choice_str c0)
     ∧ length (choices st') = length (choices st)
     ∧ questions st' = questions st
     ∧ (∀ id', id' ≠ id → find_choice id' st' = find_choice id' st))
  ∧ (¬ sqlite_integer v →
     Model_save_choice
       (mkChoice (Some id) (question_id c0) (choice_text c0) v) st
     = Raise OverflowError
     ∧ handle (ChoiceSave
                 (mkChoice (Some id) (question_id c0) (choice_text c0) v)) st
       = st).
Proof.
  intros Hst Hfind (Hid0 & Hq0 & _). unfold find_choice in Hfind.
  pose proof (find_some _ _ Hfind) as [Hin Hid%has_choice_id_true].
  apply list_elem_of_In in Hin. rewrite Hid in Hid0. simpl in Hid0.
  destruct (consistent_refs st Hst c0 Hin) as (qid & Hq & Hex).
  assert (Hrow : existsb (has_choice_id id) (choices st) = true).
  { apply existsb_exists. exists c0. split; [by apply list_elem_of_In|].
    by apply has_choice_id_true. }
  split.
  - intros Hv.
    assert (Hs : Model_save_choice
                   (mkChoice (Some id) (question_id c0) (choice_text c0) v) st
                 = write_choice
                     (mkChoice (Some id) (question_id c0) (choice_text c0) v)
                     st).
    { unfold Model_save_choice. by rewrite decide_True. }
    rewrite Hs. unfold write_choice. simpl. rewrite Hq, Hex, Hrow.
    eexists. split; [reflexivity|]. unfold votes_of, find_choice. simpl.
    rewrite find_replace_choice by done. simpl.
    split; [done|]. split; [done|].
    split; [unfold replace_choice; by rewrite length_fmap|].
    split; [done|].
    intros id' Hne. by apply find_replace_choice_other.
  - intros Hv.
    assert (Hs : Model_save_choice
                   (mkChoice (Some id) (question_id c0) (choice_text c0) v) st
                 = Raise OverflowError).
    { unfold Model_save_choice. rewrite decide_False; [done|].
      by intros (_ & _ & ?). }
    split; [done|]. simpl. by rewrite Hs.
Qed.

Lemma Choice_save_sets_votes_witness :
  (∃ st',
     Model_save_choice (mkChoice (Some 1) (Some 1) "Rojo" 2) colour_store
     = Ok (mkChoice (Some 1) (Some 1) "Rojo" 2, st')
     ∧ votes_of 1 st' = Some 2)
  ∧ Model_save_choice (mkChoice (Some 1) (Some 1) "Rojo" (2 ^ 63)) colour_store
    = Raise OverflowError.
Proof.
  assert (Hrow : storable (mkChoice (Some 1) (Some 1) "Rojo" 0)).
  { unfold storable, sqlite_integer. simpl. lia. }
  split.
  - destruct (Choice_save_sets_votes 1 2 (mkChoice (Some 1) (Some 1) "Rojo" 0)
                colour_store (reachable_consistent _ colour_store_reachable)
                eq_refl Hrow)
      as [Hfits _].
    destruct Hfits as (st' & Hs & Hv & _); [unfold sqlite_integer; lia|].
    exists st'. split; [exact Hs|exact Hv].
  - destruct (Choice_save_sets_votes 1 (2 ^ 63)
                (mkChoice (Some 1) (Some 1) "Rojo" 0)
                colour_store (reachable_consistent _ colour_store_reachable)
                eq_refl Hrow)
      as [_ Hover].
    apply Hover. unfold sqlite_integer. lia.
Defined.
